(** * The AIS stream aggregator: resilient stream/session core

    A shallow embedding of [main.js] (both near-duplicate programs of the
    repository, told apart by [variant]) and the properties of its
    reconnect scheduler, session manager and deduplication policy.

    Layout:
    - JavaScript values and the platform functions the program calls;
    - process configuration and the module-level variables;
    - a small monad [prog] for synchronous and [async] code, with the
      suspension points ([await]) explicit;
    - the functions of [main.js], in source order of dependency;
    - two interpreters: [run_open] runs one task against an arbitrary
      environment (replies and interference by other tasks), [exec_sync]
      runs the synchronous segments of a pool of promises;
    - the theorems. *)

From Stdlib Require Import Floats.PrimFloat ZArith Lia Ascii.
From stdpp Require Import base tactics option list strings.

Set Default Proof Using "Type".
Set Warnings "-register-all".

(* ================================================================== *)
(** ** JavaScript values *)

(** Values that [JSON.parse] produces, and [undefined] (what a missing
    property reads as). Numbers are IEEE doubles. An object is the list of
    its own properties, first match wins. *)
Inductive jsval : Type :=
| JUndefined
| JNull
| JBool (b : bool)
| JNum (x : float)
| JStr (s : string)
| JArr (items : list jsval)
| JObj (fields : list (string * jsval)).

Definition nan : float := (0 / 0)%float.

(** [ToBoolean]: [undefined], [null], [false], [0], [-0], [NaN] and the
    empty string are falsy. *)
Definition truthy (v : jsval) : bool :=
  match v with
  | JUndefined | JNull => false
  | JBool b => b
  | JNum x => negb (x =? 0)%float && (x =? x)%float
  | JStr s => negb (String.eqb s "")
  | JArr _ | JObj _ => true
  end.

Fixpoint assoc (k : string) (fields : list (string * jsval)) : jsval :=
  match fields with
  | [] => JUndefined
  | (k', v) :: rest => if String.eqb k k' then v else assoc k rest
  end.

(** [v?.k]: the own property [k] of an object; [undefined] on [null],
    [undefined] and on primitives and arrays (none of the property names
    the program reads is inherited from a prototype). The program only
    uses plain [v.k] on values it has tested truthy. *)
Definition getProp (v : jsval) (k : string) : jsval :=
  match v with
  | JObj fields => assoc k fields
  | _ => JUndefined
  end.

Definition isArray (v : jsval) : bool :=
  match v with JArr _ => true | _ => false end.

(** [a[i]] on an array: [undefined] out of range. *)
Definition getIndex (items : list jsval) (i : nat) : jsval :=
  default JUndefined (items !! i).

(* ================================================================== *)
(** ** The platform *)

(** Library functions of the JavaScript runtime that the program calls
    and the repository does not define. *)
Record platform : Type := {
  (** [JSON.parse(text)]; [None] when it throws [SyntaxError]. *)
  JSON_parse : string → option jsval;
  (** [Number(s)] on a string. *)
  StringToNumber : string → float;
  (** [Number(v)] on an array or object (through [ToPrimitive]). *)
  ObjectToNumber : jsval → float;
  (** [new Date(v).getTime()]: milliseconds since the epoch, [NaN] for an
      invalid date. *)
  Date_getTime : jsval → float;
  (** [new URL(path, base).toString()]. *)
  URL_resolve : string → string → string
}.

(** [Number(v)]. *)
Definition Number (P : platform) (v : jsval) : float :=
  match v with
  | JUndefined => nan
  | JNull => 0%float
  | JBool true => 1%float
  | JBool false => 0%float
  | JNum x => x
  | JStr s => StringToNumber P s
  | JArr _ | JObj _ => ObjectToNumber P v
  end.

(** [a === b] on numbers: IEEE equality ([NaN] differs from itself,
    [0] equals [-0]). *)
Definition strict_eq_num (a b : float) : bool := (a =? b)%float.

(** [a >= b] on numbers. *)
Definition num_ge (a b : float) : bool := (b <=? a)%float.

(* ================================================================== *)
(** ** HTTP, errors, console *)

Record response : Type := { status : Z; statusText : string }.

(** [response.ok]: the status is in the range 200-299. *)
Definition ok (r : response) : bool :=
  (200 <=? status r)%Z && (status r <=? 299)%Z.

(** The three requests the program sends with [fetch]. *)
Inductive request : Type :=
(** [POST cmsLoginUrl] with body [{email, password}] *)
| LoginRequest (url : string) (email password : jsval)
(** [GET cmsCollectionUrl?limit=50&sort=-createdAt&where[mmsi][equals]=..
    &where[createdAt][greater_than_or_equal]=..], bearer-authenticated *)
| QueryRequest (url : string) (bearer : jsval) (mmsi : jsval) (since : float)
(** [POST cmsCollectionUrl] with a JSON body, bearer-authenticated *)
| CreateRequest (url : string) (bearer : jsval) (body : jsval).

Definition is_login (r : request) : bool :=
  match r with LoginRequest _ _ _ => true | _ => false end.

(** What the program throws, and what the platform rejects with. *)
Inductive error : Type :=
(** [JSON.parse] failed *)
| SyntaxError
(** "Unexpected AIS report shape" *)
| UnexpectedShape
(** "Missing Payload auth token" *)
| MissingAuthToken
(** "Missing Payload auth token after re-authentication; cannot complete
    request" *)
| MissingAuthTokenAfterReauth
(** "Cannot authenticate without CMS credentials" *)
| NoCmsCredentials
(** "Payload login failed: <status> <statusText> - <body>" *)
| LoginFailed (r : response) (body : string)
(** "Payload login response missing token" *)
| LoginMissingToken
(** "Payload REST create failed: <status> <statusText> - <body>" *)
| CreateFailed (r : response) (body : string)
(** a rejection raised by the platform: network failure, broken body
    stream, body that is not JSON *)
| HostError (what : string).

Inductive outcome (A : Type) : Type :=
| Ok (a : A)
| Err (e : error).
Arguments Ok {A} a.
Arguments Err {A} e.

Inductive severity : Type := LLog | LWarn | LError.

(** One line written to the console: the literal text of the source,
    and the value interpolated or passed along, when there is one. *)
Inductive log_entry : Type :=
| Say (l : severity) (text : string)
| SayNum (l : severity) (text : string) (n : Z)
| SayErr (l : severity) (text : string) (e : error)
| SayVal (l : severity) (v : jsval)
| SayHttp (l : severity) (text : string) (r : response) (body : string).

(* ================================================================== *)
(** ** Configuration *)

(** The repository holds two near-duplicate programs: the first posts to
    [/api/ais-logs], the second to [/api/collections/ais-logs]. *)
Inductive variant : Type := AisLogs | CollectionsAisLogs.

(** [process.env]: each variable is a string or absent. *)
Record config : Type := {
  which : variant;
  MMSI : option string;
  CMS_HOST_URL : option string;
  CMS_EMAIL : option string;
  CMS_PASSWORD : option string;
  AIS_STREAM_KEY : option string
}.

(** Truthiness of an environment variable: set and not empty. *)
Definition env_set (v : option string) : bool :=
  match v with Some s => negb (String.eqb s "") | None => false end.

Definition env_val (v : option string) : jsval :=
  match v with Some s => JStr s | None => JUndefined end.

(* ================================================================== *)
(** ** Module-level variables and host state *)

Definition pid := nat.
Definition timer_id := nat.

(** The variables of the connection lifecycle. *)
Record conn : Type := {
  socket : option nat;
  minutesWaited : Z;
  isSocketOpen : bool;
  reconnectTimer : option timer_id;
  reconnectAttempts : nat;
  inactivityTimer : option timer_id;
  pingTimer : option timer_id
}.

(** The variables of the session manager. [pendingCmsLogin] holds a
    promise or [null]. *)
Record sess : Type := {
  missingCmsHostWarned : bool;
  missingCmsCredsWarned : bool;
  cmsAuthToken : jsval;
  pendingCmsLogin : option pid
}.

Inductive ready_state : Type := CONNECTING | OPEN | CLOSING | CLOSED.

Inductive timer_kind : Type :=
(** [setTimeout(reconnect callback, delay)] *)
| ReconnectTimeout (delay : Z)
(** [setInterval(inactivity callback, period)] *)
| InactivityInterval (period : Z)
(** [setInterval(ping callback, 25_000)] *)
| PingInterval.

(** What the program changes in its host: the timer table, the sockets
    it constructed, the frames it sent. [now] is [Date.now()];
    [readyState] is that of the socket the variable [socket] refers to. *)
Record host : Type := {
  now : float;
  timers : list (timer_id * timer_kind);
  nextTimer : timer_id;
  readyState : ready_state;
  constructed : nat;
  sent : list jsval;
  pings : nat
}.

Record globals : Type := { gconn : conn; gsess : sess; ghost : host }.

Definition on_conn (f : conn → conn) (g : globals) : globals :=
  {| gconn := f (gconn g); gsess := gsess g; ghost := ghost g |}.
Definition on_sess (f : sess → sess) (g : globals) : globals :=
  {| gconn := gconn g; gsess := f (gsess g); ghost := ghost g |}.
Definition on_host (f : host → host) (g : globals) : globals :=
  {| gconn := gconn g; gsess := gsess g; ghost := f (ghost g) |}.

Definition set_socket (v : option nat) (c : conn) : conn :=
  {| socket := v; minutesWaited := minutesWaited c;
     isSocketOpen := isSocketOpen c; reconnectTimer := reconnectTimer c;
     reconnectAttempts := reconnectAttempts c;
     inactivityTimer := inactivityTimer c; pingTimer := pingTimer c |}.
Definition set_minutesWaited (v : Z) (c : conn) : conn :=
  {| socket := socket c; minutesWaited := v;
     isSocketOpen := isSocketOpen c; reconnectTimer := reconnectTimer c;
     reconnectAttempts := reconnectAttempts c;
     inactivityTimer := inactivityTimer c; pingTimer := pingTimer c |}.
Definition set_isSocketOpen (v : bool) (c : conn) : conn :=
  {| socket := socket c; minutesWaited := minutesWaited c;
     isSocketOpen := v; reconnectTimer := reconnectTimer c;
     reconnectAttempts := reconnectAttempts c;
     inactivityTimer := inactivityTimer c; pingTimer := pingTimer c |}.
Definition set_reconnectTimer (v : option timer_id) (c : conn) : conn :=
  {| socket := socket c; minutesWaited := minutesWaited c;
     isSocketOpen := isSocketOpen c; reconnectTimer := v;
     reconnectAttempts := reconnectAttempts c;
     inactivityTimer := inactivityTimer c; pingTimer := pingTimer c |}.
Definition set_reconnectAttempts (v : nat) (c : conn) : conn :=
  {| socket := socket c; minutesWaited := minutesWaited c;
     isSocketOpen := isSocketOpen c; reconnectTimer := reconnectTimer c;
     reconnectAttempts := v;
     inactivityTimer := inactivityTimer c; pingTimer := pingTimer c |}.
Definition set_inactivityTimer (v : option timer_id) (c : conn) : conn :=
  {| socket := socket c; minutesWaited := minutesWaited c;
     isSocketOpen := isSocketOpen c; reconnectTimer := reconnectTimer c;
     reconnectAttempts := reconnectAttempts c;
     inactivityTimer := v; pingTimer := pingTimer c |}.
Definition set_pingTimer (v : option timer_id) (c : conn) : conn :=
  {| socket := socket c; minutesWaited := minutesWaited c;
     isSocketOpen := isSocketOpen c; reconnectTimer := reconnectTimer c;
     reconnectAttempts := reconnectAttempts c;
     inactivityTimer := inactivityTimer c; pingTimer := v |}.

Definition set_missingCmsHostWarned (v : bool) (s : sess) : sess :=
  {| missingCmsHostWarned := v;
     missingCmsCredsWarned := missingCmsCredsWarned s;
     cmsAuthToken := cmsAuthToken s; pendingCmsLogin := pendingCmsLogin s |}.
Definition set_missingCmsCredsWarned (v : bool) (s : sess) : sess :=
  {| missingCmsHostWarned := missingCmsHostWarned s;
     missingCmsCredsWarned := v;
     cmsAuthToken := cmsAuthToken s; pendingCmsLogin := pendingCmsLogin s |}.
Definition set_cmsAuthToken (v : jsval) (s : sess) : sess :=
  {| missingCmsHostWarned := missingCmsHostWarned s;
     missingCmsCredsWarned := missingCmsCredsWarned s;
     cmsAuthToken := v; pendingCmsLogin := pendingCmsLogin s |}.
Definition set_pendingCmsLogin (v : option pid) (s : sess) : sess :=
  {| missingCmsHostWarned := missingCmsHostWarned s;
     missingCmsCredsWarned := missingCmsCredsWarned s;
     cmsAuthToken := cmsAuthToken s; pendingCmsLogin := v |}.

Definition set_timers (v : list (timer_id * timer_kind)) (h : host) : host :=
  {| now := now h; timers := v; nextTimer := nextTimer h;
     readyState := readyState h; constructed := constructed h;
     sent := sent h; pings := pings h |}.
Definition set_nextTimer (v : timer_id) (h : host) : host :=
  {| now := now h; timers := timers h; nextTimer := v;
     readyState := readyState h; constructed := constructed h;
     sent := sent h; pings := pings h |}.
Definition set_readyState (v : ready_state) (h : host) : host :=
  {| now := now h; timers := timers h; nextTimer := nextTimer h;
     readyState := v; constructed := constructed h;
     sent := sent h; pings := pings h |}.
Definition set_constructed (v : nat) (h : host) : host :=
  {| now := now h; timers := timers h; nextTimer := nextTimer h;
     readyState := readyState h; constructed := v;
     sent := sent h; pings := pings h |}.
Definition set_sent (v : list jsval) (h : host) : host :=
  {| now := now h; timers := timers h; nextTimer := nextTimer h;
     readyState := readyState h; constructed := constructed h;
     sent := v; pings := pings h |}.
Definition set_pings (v : nat) (h : host) : host :=
  {| now := now h; timers := timers h; nextTimer := nextTimer h;
     readyState := readyState h; constructed := constructed h;
     sent := sent h; pings := v |}.

(** The state of a freshly loaded module, before [connect()]. *)
Definition initial_conn : conn :=
  {| socket := None; minutesWaited := 0; isSocketOpen := false;
     reconnectTimer := None; reconnectAttempts := 0;
     inactivityTimer := None; pingTimer := None |}.
Definition initial_sess : sess :=
  {| missingCmsHostWarned := false; missingCmsCredsWarned := false;
     cmsAuthToken := JNull; pendingCmsLogin := None |}.
Definition initial_host (t : float) : host :=
  {| now := t; timers := []; nextTimer := 0; readyState := CLOSED;
     constructed := 0; sent := []; pings := 0 |}.
Definition initial_globals (t : float) : globals :=
  {| gconn := initial_conn; gsess := initial_sess; ghost := initial_host t |}.

(* ================================================================== *)
(** ** Programs *)

(** What an [await] can wait for, and the type of what it yields. *)
Inductive awaitable : Type :=
(** [fetch(...)] *)
| AFetch (r : request)
(** [response.text()] *)
| AText (r : response)
(** [response.json()] *)
| AJson (r : response)
(** a promise created by the program (the pending login) *)
| APromise (p : pid)
(** the turn of the microtask queue that every [await] of an already
    completed [async] call takes *)
| ATick.

Definition reply (a : awaitable) : Type :=
  match a with
  | AFetch _ => response
  | AText _ => string
  | AJson _ => jsval
  | APromise _ => jsval
  | ATick => unit
  end.

(** A function body. [Get]/[Modify] read and assign the module-level
    variables; [Await] suspends the task until the awaited thing settles;
    [Spawn c k] calls the [async] function [c] without awaiting it and
    continues with the promise it returned; [Finally p cb k] is
    [p.finally(cb)]. *)
Inductive prog (A : Type) : Type :=
| Ret (a : A)
| Throw (e : error)
| Get (k : globals → prog A)
| Modify (f : globals → globals) (k : prog A)
| Log (l : log_entry) (k : prog A)
| Await (a : awaitable) (k : outcome (reply a) → prog A)
| Spawn (c : prog jsval) (k : pid → prog A)
| Finally (p : pid) (cb : prog unit) (k : prog A).
Arguments Ret {A} a.
Arguments Throw {A} e.
Arguments Get {A} k.
Arguments Modify {A} f k.
Arguments Log {A} l k.
Arguments Await {A} a k.
Arguments Spawn {A} c k.
Arguments Finally {A} p cb k.

Fixpoint bind {A B : Type} (m : prog A) (f : A → prog B) : prog B :=
  match m with
  | Ret a => f a
  | Throw e => Throw e
  | Get k => Get (λ g, bind (k g) f)
  | Modify h k => Modify h (bind k f)
  | Log l k => Log l (bind k f)
  | Await a k => Await a (λ o, bind (k o) f)
  | Spawn c k => Spawn c (λ p, bind (k p) f)
  | Finally p cb k => Finally p cb (bind k f)
  end.

#[export] Instance prog_ret : MRet prog := λ A a, Ret a.
#[export] Instance prog_bind : MBind prog := λ A B f m, bind m f.

(** [try { m }]: the completion of [m], thrown errors included, as a
    value. A [try] does not reach into a task that [m] only spawns. *)
Fixpoint try_ {A : Type} (m : prog A) : prog (outcome A) :=
  match m with
  | Ret a => Ret (Ok a)
  | Throw e => Ret (Err e)
  | Get k => Get (λ g, try_ (k g))
  | Modify h k => Modify h (try_ k)
  | Log l k => Log l (try_ k)
  | Await a k => Await a (λ o, try_ (k o))
  | Spawn c k => Spawn c (λ p, try_ (k p))
  | Finally p cb k => Finally p cb (try_ k)
  end.

Definition settle {A : Type} (o : outcome A) : prog A :=
  match o with Ok a => Ret a | Err e => Throw e end.

Definition get : prog globals := Get Ret.
Definition modify (f : globals → globals) : prog unit := Modify f (Ret tt).
Definition log (l : log_entry) : prog unit := Log l (Ret tt).

(** [await x] where [x] is a [fetch], a body read or a promise. *)
Definition await (a : awaitable) : prog (reply a) := Await a settle.

(** [await f(...)] for an [async] function [f]: the body runs up to its
    own completion (suspending wherever it suspends), and the caller
    continues one turn of the microtask queue later, with the value
    returned or the error thrown. *)
Definition await_call {A : Type} (body : prog A) : prog A :=
  o ← try_ body; Await ATick (λ _, settle o).

(** An arrow function [() => fetch(...)] whose request reads the
    module-level variables when it is called, together with the [await]
    of the promise it returns. *)
Definition fetchWith (mk : globals → request) : prog response :=
  g ← get; await (AFetch (mk g)).

(* ================================================================== *)
(** ** The functions of [main.js] *)

Section Program.

Variable P : platform.
Variable cfg : config.

(** [const mmsi]: read from the environment in the first program,
    hard-coded in the second. *)
Definition mmsi : jsval :=
  match which cfg with
  | AisLogs => env_val (MMSI cfg)
  | CollectionsAisLogs => JStr "308015000"
  end.

Definition collectionPath : string :=
  match which cfg with
  | AisLogs => "/api/ais-logs"
  | CollectionsAisLogs => "/api/collections/ais-logs"
  end.

(** [CMS_HOST_URL ? new URL(path, CMS_HOST_URL).toString() : null]. The
    string a [URL] prints is never empty, so [!cmsCollectionUrl] holds
    exactly when this is [None]. *)
Definition cmsUrl (path : string) : option string :=
  match CMS_HOST_URL cfg with
  | Some h => if String.eqb h "" then None else Some (URL_resolve P path h)
  | None => None
  end.

Definition cmsCollectionUrl : option string := cmsUrl collectionPath.
Definition cmsLoginUrl : option string := cmsUrl "/api/users/login".

(** [!CMS_EMAIL || !CMS_PASSWORD] *)
Definition credsMissing : bool :=
  negb (env_set (CMS_EMAIL cfg)) || negb (env_set (CMS_PASSWORD cfg)).

(** *** Timers of the host *)

(** [setTimeout] and [setInterval]: a new entry of the timer table; the
    handle returned is truthy. *)
Definition setTimer (k : timer_kind) : prog timer_id :=
  g ← get;
  let id := nextTimer (ghost g) in
  modify (on_host (λ h, set_nextTimer (S id) (set_timers (timers h ++ [(id, k)]) h)));;
  mret id.

Definition drop_timer (id : timer_id) (l : list (timer_id * timer_kind)) :
    list (timer_id * timer_kind) :=
  filter (λ e, e.1 ≠ id) l.

(** [clearInterval] *)
Definition clearTimer (id : timer_id) : prog unit :=
  modify (on_host (λ h, set_timers (drop_timer id (timers h)) h)).

Fixpoint find_timer (id : timer_id) (l : list (timer_id * timer_kind)) :
    option timer_kind :=
  match l with
  | [] => None
  | (i, k) :: rest => if Nat.eqb i id then Some k else find_timer id rest
  end.

(** *** Inactivity monitor *)

Definition inactivityStep : Z :=
  match which cfg with AisLogs => 60 | CollectionsAisLogs => 5 end.

Definition inactivityPeriod : Z :=
  match which cfg with AisLogs => 3600000 | CollectionsAisLogs => 300000 end.

(** The callback of the inactivity interval. *)
Definition inactivityTick : prog unit :=
  modify (on_conn (λ c, set_minutesWaited (minutesWaited c + inactivityStep) c));;
  g ← get;
  match which cfg with
  | AisLogs =>
      log (SayNum LLog "hours since last message..." (minutesWaited (gconn g) / 60))
  | CollectionsAisLogs =>
      log (SayNum LLog "minutes since last message..." (minutesWaited (gconn g)))
  end.

Definition startInactivityTimer : prog unit :=
  g ← get;
  match inactivityTimer (gconn g) with
  | Some t => clearTimer t
  | None => mret tt
  end;;
  id ← setTimer (InactivityInterval inactivityPeriod);
  modify (on_conn (set_inactivityTimer (Some id))).

Definition clearInactivityTimer : prog unit :=
  g ← get;
  match inactivityTimer (gconn g) with
  | None => mret tt
  | Some t =>
      clearTimer t;;
      modify (on_conn (set_inactivityTimer None))
  end.

(** *** Connection lifecycle *)

Definition subscriptionMessage : jsval :=
  JObj [("APIKey", env_val (AIS_STREAM_KEY cfg));
        ("BoundingBoxes",
          JArr [JArr [JArr [JNum (-90); JNum (-180)]; JArr [JNum 90; JNum 180]]]);
        ("FiltersShipMMSI", JArr [mmsi]);
        ("FilterMessageTypes", JArr [JStr "PositionReport"])].

Definition socketIsOpen (g : globals) : bool :=
  match socket (gconn g), readyState (ghost g) with
  | Some _, OPEN => true
  | _, _ => false
  end.

Definition sendSubscription : prog unit :=
  if negb (env_set (AIS_STREAM_KEY cfg)) then
    log (Say LLog "Missing aisstream.io API key")
  else
    g ← get;
    if negb (socketIsOpen g) then
      log (Say LLog "WebSocket not ready; unable to subscribe")
    else
      modify (on_host (λ h, set_sent (sent h ++ [subscriptionMessage]) h));;
      startInactivityTimer.

(** [new WebSocket(STREAM_URL)] and the assignment of the four handlers. *)
Definition connect : prog unit :=
  log (Say LLog "Connecting to AIS stream...");;
  g ← get;
  let n := constructed (ghost g) in
  modify (on_host (λ h, set_readyState CONNECTING (set_constructed (S n) h)));;
  modify (on_conn (set_socket (Some n))).

(** [Math.min(30_000, 1_000 * 2 ** reconnectAttempts)]. Every value
    below the cap is an integer a double holds exactly, and once
    [2 ** n] overflows to [Infinity] the minimum is still [30000]. *)
Definition reconnectDelay (attempts : nat) : Z :=
  Z.min 30000 (1000 * 2 ^ Z.of_nat attempts).

(** The callback [scheduleReconnect] hands to [setTimeout]. *)
Definition reconnectCallback : prog unit :=
  modify (on_conn (set_reconnectTimer None));;
  modify (on_conn (λ c, set_reconnectAttempts (S (reconnectAttempts c)) c));;
  connect.

Definition scheduleReconnect : prog unit :=
  g ← get;
  match reconnectTimer (gconn g) with
  | Some _ => mret tt
  | None =>
      let delay := reconnectDelay (reconnectAttempts (gconn g)) in
      log (SayNum LWarn "AIS stream disconnected. Reconnecting in (s)" (delay / 1000));;
      id ← setTimer (ReconnectTimeout delay);
      modify (on_conn (set_reconnectTimer (Some id)))
  end.

(** The callback of the keepalive interval (first program only). *)
Definition pingCallback : prog unit :=
  g ← get;
  if socketIsOpen g then modify (on_host (λ h, set_pings (S (pings h)) h))
  else mret tt.

Definition handleOpen : prog unit :=
  log (Say LLog "AIS stream websocket connected");;
  modify (on_conn (set_isSocketOpen true));;
  modify (on_conn (set_minutesWaited 0));;
  modify (on_conn (set_reconnectAttempts 0));;
  match which cfg with
  | AisLogs =>
      id ← setTimer PingInterval;
      modify (on_conn (set_pingTimer (Some id)))
  | CollectionsAisLogs => mret tt
  end;;
  sendSubscription.

Definition handleClose (code : Z) : prog unit :=
  modify (on_conn (set_isSocketOpen false));;
  clearInactivityTimer;;
  match which cfg with
  | AisLogs =>
      g ← get;
      match pingTimer (gconn g) with
      | Some t => clearTimer t
      | None => mret tt
      end;;
      modify (on_conn (set_pingTimer None))
  | CollectionsAisLogs => mret tt
  end;;
  log (SayNum LWarn "AIS stream websocket closed (code)" code);;
  scheduleReconnect.

Definition handleError (err : string) : prog unit :=
  log (SayErr LError "AIS stream websocket error" (HostError err));;
  scheduleReconnect.

(** A timer of the host fires: a timeout leaves the table and runs its
    callback, an interval runs its callback and stays. *)
Definition fireTimer (id : timer_id) : prog unit :=
  g ← get;
  match find_timer id (timers (ghost g)) with
  | None => mret tt
  | Some (ReconnectTimeout _) => clearTimer id;; reconnectCallback
  | Some (InactivityInterval _) => inactivityTick
  | Some PingInterval => pingCallback
  end.
(** *** Session manager *)

Definition warnMissingCmsHost : prog unit :=
  g ← get;
  if missingCmsHostWarned (gsess g) then mret tt
  else
    log (Say LWarn "Missing CMS_HOST_URL; skipping Payload persistence");;
    modify (on_sess (set_missingCmsHostWarned true)).

Definition warnMissingCmsCreds : prog unit :=
  g ← get;
  if missingCmsCredsWarned (gsess g) then mret tt
  else
    log (Say LWarn "Missing CMS_EMAIL or CMS_PASSWORD; skipping Payload persistence");;
    modify (on_sess (set_missingCmsCredsWarned true)).

(** [payload?.token || payload?.jwt] *)
Definition tokenOf (payload : jsval) : jsval :=
  if truthy (getProp payload "token") then getProp payload "token"
  else getProp payload "jwt".

Definition loginToCms : prog jsval :=
  match cmsLoginUrl with
  | None => warnMissingCmsHost;; mret JNull
  | Some url =>
      if credsMissing then
        warnMissingCmsCreds;; Throw NoCmsCredentials
      else
        response ← await (AFetch (LoginRequest url (env_val (CMS_EMAIL cfg))
                                                  (env_val (CMS_PASSWORD cfg))));
        if negb (ok response) then
          body ← await (AText response);
          Throw (LoginFailed response body)
        else
          payload ← await (AJson response);
          let token := tokenOf payload in
          if negb (truthy token) then Throw LoginMissingToken
          else
            modify (on_sess (set_cmsAuthToken token));;
            log (Say LLog "Authenticated with Payload CMS REST API");;
            mret token
  end.

(** The body of the [async] arrow function whose promise
    [ensureCmsSession] stores in [pendingCmsLogin]. *)
Definition loginTask : prog jsval :=
  await_call loginToCms;;
  g ← get;
  mret (cmsAuthToken (gsess g)).

(** The callback given to [pendingCmsLogin.finally]. *)
Definition clearPendingLogin : prog unit :=
  modify (on_sess (set_pendingCmsLogin None)).

Definition ensureCmsSession : prog jsval :=
  g ← get;
  if truthy (cmsAuthToken (gsess g)) then mret (cmsAuthToken (gsess g))
  else
    match cmsLoginUrl with
    | None => warnMissingCmsHost;; mret JNull
    | Some _ =>
        if credsMissing then warnMissingCmsCreds;; mret JNull
        else
          match pendingCmsLogin (gsess g) with
          | None =>
              Spawn loginTask (λ p,
                Modify (on_sess (set_pendingCmsLogin (Some p)))
                  (Finally p clearPendingLogin (Ret tt)))
          | Some _ => mret tt
          end;;
          g' ← get;
          match pendingCmsLogin (gsess g') with
          | Some p => await (APromise p)
          | None => mret JNull
          end
    end.

Definition is_auth_failure (r : response) : bool :=
  (status r =? 401)%Z || (status r =? 403)%Z.

(** [requestFactory] is the call [requestFactory()] together with the
    [await] of the promise it returns. *)
Definition performAuthorizedRequest (requestFactory : prog response) :
    prog response :=
  g ← get;
  (if negb (truthy (cmsAuthToken (gsess g))) then
     await_call ensureCmsSession;; mret tt
   else mret tt);;
  g ← get;
  if negb (truthy (cmsAuthToken (gsess g))) then Throw MissingAuthToken
  else
    response ← requestFactory;
    if is_auth_failure response then
      modify (on_sess (set_cmsAuthToken JNull));;
      await_call ensureCmsSession;;
      g ← get;
      if negb (truthy (cmsAuthToken (gsess g))) then
        Throw MissingAuthTokenAfterReauth
      else requestFactory
    else mret response.

(** *** Deduplication policy *)

(** The callback of [hasRecentLog = docs.some(...)]. *)
Definition isRecentLog (sixHoursAgoThreshold : float) (doc : jsval) : bool :=
  if negb (truthy (getProp doc "createdAt")) then false
  else num_ge (Date_getTime P (getProp doc "createdAt")) sixHoursAgoThreshold.

(** The callback of [hasSameLocation = docs.some(...)]. *)
Definition isSameLocation (pr : jsval) (doc : jsval) : bool :=
  match getProp doc "location" with
  | JArr docLocation =>
      if (length docLocation <? 2)%nat then false
      else
        strict_eq_num (Number P (getIndex docLocation 0))
                      (Number P (getProp pr "Latitude"))
        && strict_eq_num (Number P (getIndex docLocation 1))
                         (Number P (getProp pr "Longitude"))
  | _ => false
  end.

(** [Array.isArray(payload?.docs) ? payload.docs : []] *)
Definition docsOf (payload : jsval) : list jsval :=
  match getProp payload "docs" with
  | JArr docs => docs
  | _ => []
  end.

(** [fetchRecentLogs]: the bearer token is read when the request is
    made. *)
Definition fetchRecentLogs (url : string) (twelveHoursAgo : float) :
    prog response :=
  fetchWith (λ g, QueryRequest url (cmsAuthToken (gsess g)) mmsi twelveHoursAgo).

Definition shouldPersistPositionReport (pr : jsval) : prog bool :=
  match cmsCollectionUrl with
  | None => warnMissingCmsHost;; mret false
  | Some url =>
      g ← get;
      if negb (truthy (cmsAuthToken (gsess g))) then
        log (Say LWarn "Skipping duplicate check; missing auth token");;
        mret true
      else
        let now := now (ghost g) in
        let twelveHoursAgo := (now - 12 * 60 * 60 * 1000)%float in
        let sixHoursAgoThreshold := (now - 6 * 60 * 60 * 1000)%float in
        queried ← try_ (await_call
                          (performAuthorizedRequest (fetchRecentLogs url twelveHoursAgo)));
        match queried with
        | Err e =>
            log (SayErr LError "Failed to query recent AIS logs" e);;
            mret true
        | Ok response =>
            if negb (ok response) then
              body ← await (AText response);
              log (SayHttp LError "Payload REST query failed" response body);;
              mret true
            else
              parsed ← try_ (await (AJson response));
              match parsed with
              | Err e =>
                  log (SayErr LError "Failed to parse Payload REST query response" e);;
                  mret true
              | Ok payload =>
                  let docs := docsOf payload in
                  let hasRecentLog := existsb (isRecentLog sixHoursAgoThreshold) docs in
                  let hasSameLocation := existsb (isSameLocation pr) docs in
                  if hasRecentLog then
                    log (Say LLog "Skipping AIS log: entry exists within last 6 hours");;
                    mret false
                  else if hasSameLocation then
                    log (Say LLog "Skipping AIS log: identical location already stored within last 12 hours");;
                    mret false
                  else mret true
              end
        end
  end.

(** The [location] pair of the record sent to the store: the first
    program flips latitude and longitude, the second does not. *)
Definition locationOf (pr : jsval) : list jsval :=
  match which cfg with
  | AisLogs => [getProp pr "Longitude"; getProp pr "Latitude"]
  | CollectionsAisLogs => [getProp pr "Latitude"; getProp pr "Longitude"]
  end.

(** The object [postAisLog] serialises as the request body. *)
Definition aisLogBody (pr : jsval) : jsval :=
  JObj [("mmsi", mmsi);
        ("location", JArr (locationOf pr));
        ("sog", getProp pr "Sog");
        ("navigationalStatus", getProp pr "NavigationalStatus");
        ("rateOfTurn", getProp pr "RateOfTurn");
        ("trueHeading", getProp pr "TrueHeading")].

Definition postAisLog (url : string) (pr : jsval) : prog response :=
  fetchWith (λ g, CreateRequest url (cmsAuthToken (gsess g)) (aisLogBody pr)).

Definition persistPositionReport (pr : jsval) : prog unit :=
  match cmsCollectionUrl, cmsLoginUrl with
  | Some url, Some _ =>
      if credsMissing then warnMissingCmsCreds
      else
        session ← try_ (await_call ensureCmsSession);
        match session with
        | Err e => log (SayErr LError "Failed to authenticate with Payload REST API" e)
        | Ok _ =>
            g ← get;
            if negb (truthy (cmsAuthToken (gsess g))) then
              log (Say LWarn "Skipping Payload persistence; missing auth token")
            else
              decided ← try_ (await_call (shouldPersistPositionReport pr));
              match decided with
              | Err e =>
                  log (SayErr LError "Failed to evaluate AIS log duplication rules" e)
              | Ok shouldPersist =>
                  if negb shouldPersist then mret tt
                  else
                    posted ← try_ (
                      response ← await_call (performAuthorizedRequest (postAisLog url pr));
                      if negb (ok response) then
                        body ← await (AText response);
                        Throw (CreateFailed response body)
                      else mret tt);
                    match posted with
                    | Err e =>
                        log (SayErr LError "Failed to persist AIS log via Payload REST API" e)
                    | Ok _ => mret tt
                    end
              end
        end
  | _, _ => warnMissingCmsHost
  end.

(** *** Inbound messages *)

(** [aisMessage?.Message?.PositionReport] *)
Definition positionReportOf (aisMessage : jsval) : jsval :=
  getProp (getProp aisMessage "Message") "PositionReport".

(** [data] is [event.data] (the second program calls [toString()] on it
    first). *)
Definition handleMessage (data : string) : prog unit :=
  handled ← try_ (
    match JSON_parse P data with
    | None => Throw SyntaxError
    | Some aisMessage =>
        modify (on_conn (set_minutesWaited 0));;
        log (Say LLog "AIS Message");;
        log (SayVal LLog aisMessage);;
        if truthy (positionReportOf aisMessage) then
          await_call (persistPositionReport (positionReportOf aisMessage))
        else Throw UnexpectedShape
    end);
  match handled with
  | Err e => log (SayErr LLog "" e)
  | Ok _ => mret tt
  end.

End Program.

(* ================================================================== *)
(** ** Running one task against its environment *)

(** What a run shows of a task: the console lines it wrote, what it
    awaited and was answered, the tasks it started (with what they first
    suspended on) and the callbacks it registered. *)
Inductive obs : Type :=
| OLog (l : log_entry)
| OAwait (a : awaitable) (o : outcome (reply a))
| OSpawn (p : pid)
| OIssued (a : awaitable)
| OFinally (p : pid).

(** The synchronous prefix of a program: it runs to its first [await]
    (or to completion) and changes the variables on the way. This is how
    a handler without [await] runs, and how much of an [async] function
    runs inside the call that is not awaited. [c] numbers the suspension
    points and promises of the run. *)
Fixpoint prefix {A : Type} (p : prog A) (c : nat) (g : globals) :
    nat * globals * list obs :=
  match p with
  | Ret _ | Throw _ => (c, g, [])
  | Get k => prefix (k g) c g
  | Modify f k => prefix k c (f g)
  | Log l k => let '(c', g', t) := prefix k c g in (c', g', OLog l :: t)
  | Await a _ => (c, g, [OIssued a])
  | Spawn ch k =>
      let '(c1, g1, t1) := prefix ch (S c) g in
      let '(c2, g2, t2) := prefix (k c) c1 g1 in
      (c2, g2, OSpawn c :: t1 ++ t2)
  | Finally p _ k =>
      let '(c', g', t) := prefix k c g in (c', g', OFinally p :: t)
  end.

(** A handler without [await], run to completion. *)
Definition run_handler (h : prog unit) (g : globals) : globals :=
  (prefix h 0 g).1.2.

Definition logs_of_handler (h : prog unit) (g : globals) : list obs :=
  (prefix h 0 g).2.

(** The environment of a task: what each suspension point is answered
    with, and what the other tasks and the host do to the variables
    while the task is suspended there. *)
Record world : Type := {
  answer : nat → ∀ a : awaitable, outcome (reply a);
  interfere : nat → globals → globals
}.

Record run (A : Type) : Type := {
  final : globals;
  trace : list obs;
  result : outcome A
}.
Arguments final {A} r.
Arguments trace {A} r.
Arguments result {A} r.

Definition seen {A : Type} (t : list obs) (r : run A) : run A :=
  {| final := final r; trace := t ++ trace r; result := result r |}.

(** One task from its call to its completion. At every [await] the
    environment answers and interferes; a spawned task runs its
    synchronous prefix and is then left to the environment. *)
Fixpoint run_open {A : Type} (w : world) (p : prog A) (c : nat) (g : globals) :
    run A :=
  match p with
  | Ret a => {| final := g; trace := []; result := Ok a |}
  | Throw e => {| final := g; trace := []; result := Err e |}
  | Get k => run_open w (k g) c g
  | Modify f k => run_open w k c (f g)
  | Log l k => seen [OLog l] (run_open w k c g)
  | Await a k =>
      let o := answer w c a in
      seen [OAwait a o] (run_open w (k o) (S c) (interfere w c g))
  | Spawn ch k =>
      let '(c1, g1, t1) := prefix ch (S c) g in
      seen (OSpawn c :: t1) (run_open w (k c) c1 g1)
  | Finally p _ k => seen [OFinally p] (run_open w k c g)
  end.

(** The requests a run awaited with [fetch], oldest first, each with the
    answer it got. *)
Definition fetch_of (o : obs) : option (request * outcome response) :=
  match o with
  | OAwait a r =>
      match a return outcome (reply a) → option (request * outcome response) with
      | AFetch q => λ r, Some (q, r)
      | _ => λ _, None
      end r
  | _ => None
  end.

Definition fetches (t : list obs) : list (request * outcome response) :=
  omap fetch_of t.

(** The promises a run awaited and found rejected. *)
Definition rejected_promise (o : obs) : option error :=
  match o with
  | OAwait a r =>
      match a return outcome (reply a) → option error with
      | APromise _ => λ r, match r with Err e => Some e | Ok _ => None end
      | _ => λ _, None
      end r
  | _ => None
  end.

Definition json_of (o : obs) : option (outcome jsval) :=
  match o with
  | OAwait a r =>
      match a return outcome (reply a) → option (outcome jsval) with
      | AJson _ => λ r, Some r
      | _ => λ _, None
      end r
  | _ => None
  end.

Definition text_of (o : obs) : option (outcome string) :=
  match o with
  | OAwait a r =>
      match a return outcome (reply a) → option (outcome string) with
      | AText _ => λ r, Some r
      | _ => λ _, None
      end r
  | _ => None
  end.

Definition log_of (o : obs) : option log_entry :=
  match o with OLog l => Some l | _ => None end.

Definition logs (t : list obs) : list log_entry := omap log_of t.

(** The history entries a run of the duplicate check read, the error
    bodies it read, and the promises it found rejected. *)
Definition jsons (t : list obs) : list (outcome jsval) := omap json_of t.
Definition texts (t : list obs) : list (outcome string) := omap text_of t.
Definition rejected (t : list obs) : list error := omap rejected_promise t.

Definition is_query (r : request) : bool :=
  match r with QueryRequest _ _ _ _ => true | _ => false end.

Definition is_create (r : request) : bool :=
  match r with CreateRequest _ _ _ => true | _ => false end.

(** The records a run posted to the store. *)
Definition creates (t : list obs) : list (request * outcome response) :=
  List.filter (λ qo, is_create qo.1) (fetches t).

(** The two one-time warnings about missing configuration. *)
Definition warn_log (l : log_entry) : bool :=
  match l with
  | Say LWarn s =>
      String.eqb s "Missing CMS_HOST_URL; skipping Payload persistence"
      || String.eqb s "Missing CMS_EMAIL or CMS_PASSWORD; skipping Payload persistence"
  | _ => false
  end.

(** The line the duplicate check writes when it runs without a cached
    credential. *)
Definition is_skip_log (l : log_entry) : bool :=
  match l with
  | Say LWarn s => String.eqb s "Skipping duplicate check; missing auth token"
  | _ => false
  end.

Definition outcome_errors {A : Type} (r : outcome A) : list error :=
  match r with Ok _ => [] | Err e => [e] end.


(** A reply with status 401 or 403. *)
Definition auth_failure_reply (o : outcome response) : bool :=
  match o with Ok r => is_auth_failure r | Err _ => false end.

(* ================================================================== *)
(** ** The connection lifecycle as a state machine *)

(** The events the host delivers to the connection: the four socket
    handlers, each with the [readyState] the current socket has by then,
    and the firing of a timer. *)
Inductive conn_event : Type :=
| EvOpen (rs : ready_state)
| EvClose (rs : ready_state) (code : Z)
| EvError (rs : ready_state) (err : string)
| EvTimer (id : timer_id).

Definition conn_step (cfg : config) (e : conn_event) (g : globals) : globals :=
  match e with
  | EvOpen rs => run_handler (handleOpen cfg) (on_host (set_readyState rs) g)
  | EvClose rs code =>
      run_handler (handleClose cfg code) (on_host (set_readyState rs) g)
  | EvError rs err =>
      run_handler (handleError err) (on_host (set_readyState rs) g)
  | EvTimer id => run_handler (fireTimer cfg id) g
  end.

(** The module is loaded ([connect()] at its last line), then the events
    arrive in order. *)
Definition conn_run (cfg : config) (es : list conn_event) (t : float) : globals :=
  fold_left (λ g e, conn_step cfg e g) es (run_handler connect (initial_globals t)).

Definition is_reconnect (e : timer_id * timer_kind) : bool :=
  match e.2 with ReconnectTimeout _ => true | _ => false end.

(** The reconnect timers pending in the host. *)
Definition pending_reconnects (g : globals) : list (timer_id * timer_kind) :=
  List.filter is_reconnect (timers (ghost g)).

(** The variable [reconnectTimer] accounts for every pending reconnect
    timer. *)
Definition one_timer (g : globals) : Prop :=
  length (pending_reconnects g) ≤
    match reconnectTimer (gconn g) with Some _ => 1 | None => 0 end.

(** The event is the firing of a pending reconnect timer. *)
Definition fires_reconnect (e : conn_event) (g : globals) : bool :=
  match e with
  | EvTimer id =>
      match find_timer id (timers (ghost g)) with
      | Some (ReconnectTimeout _) => true
      | _ => false
      end
  | _ => false
  end.


(* ================================================================== *)
(** ** The pool of promises *)

(** A promise the program created: still running (suspended at an
    [await], with the callbacks [finally] registered on it) or settled. *)
Inductive task : Type :=
| Running (a : awaitable) (k : outcome (reply a) → prog jsval) (fin : list (prog unit))
| Settled (o : outcome jsval).

(** The process between two turns of the event loop: the variables, the
    promises, the requests sent so far, the console, and the queue of
    callbacks of promises that settled. *)
Record sched : Type := {
  glob : globals;
  pool : list task;
  network : list request;
  console : list log_entry;
  jobs : list (prog unit)
}.

Definition set_glob (v : globals) (s : sched) : sched :=
  {| glob := v; pool := pool s; network := network s; console := console s;
     jobs := jobs s |}.
Definition set_pool (v : list task) (s : sched) : sched :=
  {| glob := glob s; pool := v; network := network s; console := console s;
     jobs := jobs s |}.
Definition set_network (v : list request) (s : sched) : sched :=
  {| glob := glob s; pool := pool s; network := v; console := console s;
     jobs := jobs s |}.
Definition set_console (v : list log_entry) (s : sched) : sched :=
  {| glob := glob s; pool := pool s; network := network s; console := v;
     jobs := jobs s |}.
Definition set_jobs (v : list (prog unit)) (s : sched) : sched :=
  {| glob := glob s; pool := pool s; network := network s; console := console s;
     jobs := v |}.

(** How a synchronous segment ends: the function completed, or it is
    suspended at an [await]. *)
Inductive susp (A : Type) : Type :=
| SDone (o : outcome A)
| SAwait (a : awaitable) (k : outcome (reply a) → prog A).
Arguments SDone {A} o.
Arguments SAwait {A} a k.

(** A [fetch] sends its request when it is called. *)
Definition issue (a : awaitable) (s : sched) : sched :=
  match a with
  | AFetch r => set_network (network s ++ [r]) s
  | _ => s
  end.

Definition task_of (r : susp jsval) : task :=
  match r with
  | SDone o => Settled o
  | SAwait a k => Running a k []
  end.

(** [p.finally(cb)]: the callback waits for [p] to settle; on a settled
    promise it is queued at once. *)
Definition register (p : pid) (cb : prog unit) (s : sched) : sched :=
  match pool s !! p with
  | Some (Running a k fin) => set_pool (<[p := Running a k (fin ++ [cb])]> (pool s)) s
  | Some (Settled _) => set_jobs (jobs s ++ [cb]) s
  | None => s
  end.

(** One synchronous segment: it runs to the next [await]. A spawned
    function runs its own first segment inside the call, and its promise
    joins the pool. *)
Fixpoint exec_sync {A : Type} (p : prog A) (s : sched) : sched * susp A :=
  match p with
  | Ret a => (s, SDone (Ok a))
  | Throw e => (s, SDone (Err e))
  | Get k => exec_sync (k (glob s)) s
  | Modify f k => exec_sync k (set_glob (f (glob s)) s)
  | Log l k => exec_sync k (set_console (console s ++ [l]) s)
  | Await a k => (issue a s, SAwait a k)
  | Spawn ch k =>
      let '(s1, r) := exec_sync ch s in
      let p := length (pool s1) in
      exec_sync (k p) (set_pool (pool s1 ++ [task_of r]) s1)
  | Finally p cb k => exec_sync k (register p cb s)
  end.

(** The queued callbacks run before the host delivers anything else. *)
Definition flush (s : sched) : sched :=
  fold_left (λ s cb, (exec_sync cb s).1) (jobs s) (set_jobs [] s).

(** A caller invokes an [async] function: its first segment runs, and
    the caller holds what it is suspended on. *)
Definition call {A : Type} (body : prog A) (s : sched) : sched * susp A :=
  let '(s1, r) := exec_sync body s in (flush s1, r).

(** What an awaited thing yields: a promise of the pool yields its
    outcome once it is settled, anything else what the host answers. *)
Definition reply_for (ans : ∀ a : awaitable, outcome (reply a)) (pl : list task)
    (a : awaitable) : option (outcome (reply a)) :=
  match a return option (outcome (reply a)) with
  | APromise q =>
      match pl !! q with
      | Some (Settled o) => Some o
      | _ => None
      end
  | a' => Some (ans a')
  end.

Definition fin_of (t : option task) : list (prog unit) :=
  match t with Some (Running _ _ fin) => fin | _ => [] end.

(** The promise [t] after its next segment: settled, with its callbacks
    queued, or suspended again. *)
Definition resume (t : pid) (r : susp jsval) (s : sched) : sched :=
  match r with
  | SDone o =>
      set_jobs (jobs s ++ fin_of (pool s !! t)) (set_pool (<[t := Settled o]> (pool s)) s)
  | SAwait a k => set_pool (<[t := Running a k (fin_of (pool s !! t))]> (pool s)) s
  end.

(** The host completes what the promise [t] is waiting for. *)
Definition complete (t : pid) (ans : ∀ a : awaitable, outcome (reply a)) (s : sched) :
    sched :=
  match pool s !! t with
  | Some (Running a k _) =>
      match reply_for ans (pool s) a with
      | Some o => let '(s1, r) := exec_sync (k o) s in flush (resume t r s1)
      | None => s
      end
  | _ => s
  end.

(** What happens to the session manager: some caller invokes
    [ensureCmsSession()], [performAuthorizedRequest] drops the cached
    token after a 401 or 403, the host answers a pending login. These are
    the only places that write [cmsAuthToken] or [pendingCmsLogin]. *)
Inductive session_event : Type :=
| CallEnsure
| Invalidate
| Complete (t : pid) (ans : ∀ a : awaitable, outcome (reply a)).

Definition session_step (P : platform) (cfg : config) (e : session_event) (s : sched) :
    sched :=
  match e with
  | CallEnsure => (call (ensureCmsSession P cfg) s).1
  | Invalidate => set_glob (on_sess (set_cmsAuthToken JNull) (glob s)) s
  | Complete t ans => complete t ans s
  end.

Definition initial_sched (g : globals) : sched :=
  {| glob := g; pool := []; network := []; console := []; jobs := [] |}.

Definition session_run (P : platform) (cfg : config) (es : list session_event)
    (t : float) : sched :=
  fold_left (λ s e, session_step P cfg e s) es (initial_sched (initial_globals t)).

Definition is_running (t : task) : bool :=
  match t with Running _ _ _ => true | Settled _ => false end.

(** The login attempts that have not settled. *)
Definition in_flight (s : sched) : list task := List.filter is_running (pool s).

(** The request [loginToCms] sends. *)
Definition loginRequest (cfg : config) (url : string) : request :=
  LoginRequest url (env_val (CMS_EMAIL cfg)) (env_val (CMS_PASSWORD cfg)).

(** A call of [ensureCmsSession] in this state sends a login request:
    no token is cached, the login URL and the credentials are
    configured, and no login is pending. *)
Definition starts_login (P : platform) (cfg : config) (s : sched) : bool :=
  negb (truthy (cmsAuthToken (gsess (glob s))))
  && bool_decide (is_Some (cmsLoginUrl P cfg))
  && negb (credsMissing cfg)
  && bool_decide (pendingCmsLogin (gsess (glob s)) = None).

(** What [ensureCmsSession] hands its caller. *)
Definition ensure_result (P : platform) (cfg : config) (s : sched) : susp jsval :=
  if truthy (cmsAuthToken (gsess (glob s))) then SDone (Ok (cmsAuthToken (gsess (glob s))))
  else if bool_decide (is_Some (cmsLoginUrl P cfg)) && negb (credsMissing cfg) then
    match pendingCmsLogin (gsess (glob s)) with
    | Some p => SAwait (APromise p) settle
    | None => SAwait (APromise (length (pool s))) settle
    end
  else SDone (Ok JNull).

(* ================================================================== *)
(** ** Reasoning about programs *)

(** [wp p g Q]: [Q] holds of the variables when the synchronous prefix
    of [p], started with the variables [g], ends. *)
Fixpoint wp {A : Type} (p : prog A) (g : globals) (Q : globals → Prop) : Prop :=
  match p with
  | Ret _ | Throw _ => Q g
  | Get k => wp (k g) g Q
  | Modify f k => wp k (f g) Q
  | Log _ k => wp k g Q
  | Await _ _ => Q g
  | Spawn ch k => wp ch g (λ g1, ∀ p, wp (k p) g1 Q)
  | Finally _ _ k => wp k g Q
  end.

Definition preserves {A : Type} (I : globals → Prop) (p : prog A) : Prop :=
  ∀ g, I g → wp p g I.

(** A property of a completed run: the final variables, the trace and
    the outcome. *)
Definition post (A : Type) : Type := globals → list obs → outcome A → Prop.

(** [wpo p g Q]: [Q] holds of every run of [p] from [g], whatever the
    environment answers and however it interferes at the suspension
    points. *)
Fixpoint wpo {A : Type} (p : prog A) (g : globals) (Q : post A) : Prop :=
  match p with
  | Ret a => Q g [] (Ok a)
  | Throw e => Q g [] (Err e)
  | Get k => wpo (k g) g Q
  | Modify f k => wpo k (f g) Q
  | Log l k => wpo k g (λ g' t r, Q g' (OLog l :: t) r)
  | Await a k =>
      ∀ (o : outcome (reply a)) (g' : globals),
        wpo (k o) g' (λ g'' t r, Q g'' (OAwait a o :: t) r)
  | Spawn ch k =>
      ∀ c, wpo (k c) (prefix ch (S c) g).1.2
             (λ g' t r, Q g' (OSpawn c :: (prefix ch (S c) g).2 ++ t) r)
  | Finally p _ k => wpo k g (λ g' t r, Q g' (OFinally p :: t) r)
  end.

(** A program that neither starts nor registers anything, sends no
    request and leaves [pendingCmsLogin] alone: what is left of a login
    once its request is out. *)
Fixpoint quiet {A : Type} (p : prog A) : Prop :=
  match p with
  | Ret _ | Throw _ => True
  | Get k => ∀ g, quiet (k g)
  | Modify f k =>
      (∀ g, pendingCmsLogin (gsess (f g)) = pendingCmsLogin (gsess g)) ∧ quiet k
  | Log _ k => quiet k
  | Await a k => (∀ r, a ≠ AFetch r) ∧ ∀ o, quiet (k o)
  | Spawn _ _ | Finally _ _ _ => False
  end.

Definition susp_quiet {A : Type} (r : susp A) : Prop :=
  match r with
  | SDone _ => True
  | SAwait a k => ∀ o, quiet (k o)
  end.

Definition task_ok (t : task) : Prop :=
  match t with
  | Running a k fin => fin = [clearPendingLogin] ∧ ∀ o, quiet (k o)
  | Settled _ => True
  end.

(** The invariant of the session manager: between two turns no callback
    is queued, a running promise is the one [pendingCmsLogin] holds (and
    carries the callback that clears it), and [pendingCmsLogin] holds a
    running promise. *)
Definition tracked (s : sched) : Prop :=
  jobs s = [] ∧
  (∀ i ti, pool s !! i = Some ti → is_running ti = true →
     pendingCmsLogin (gsess (glob s)) = Some i ∧ task_ok ti) ∧
  (∀ i, pendingCmsLogin (gsess (glob s)) = Some i →
     ∃ ti, pool s !! i = Some ti ∧ is_running ti = true).

(** *** What the runs of each function show *)

(** [ensureCmsSession]: no HTTP of its own (the login request belongs to
    the task it starts); it fails exactly when the promise it awaits is
    rejected; it writes nothing but the configuration warnings. *)
Definition ensure_post : post jsval := λ g t r,
  fetches t = [] ∧ jsons t = [] ∧ texts t = [] ∧
  rejected t = outcome_errors r ∧ forallb warn_log (logs t) = true.

(** [performAuthorizedRequest], by the requests it awaited:
    - none: it failed, with "Missing Payload auth token" or with the
      error of a rejected login;
    - one: its reply is the result, unless the reply was a 401 or 403;
      then the call failed, with the error of the rejected login, or,
      when no login was rejected, with "Missing Payload auth token after
      re-authentication";
    - two: the first reply was a 401 or 403 and the second reply is the
      result, whatever its status;
    - never more. *)
Definition par_shape (t : list obs) (r : outcome response) : Prop :=
  match fetches t with
  | [] => r = Err MissingAuthToken ∨ ∃ e, r = Err e ∧ rejected t = [e]
  | [(_, o1)] =>
      if auth_failure_reply o1 then
        ∃ e, r = Err e ∧
          (rejected t = [] ∧ e = MissingAuthTokenAfterReauth ∨ rejected t = [e])
      else r = o1 ∧ rejected t = []
  | [(_, o1); (_, o2)] => auth_failure_reply o1 = true ∧ r = o2 ∧ rejected t = []
  | _ => False
  end.

(** Every request was built while a token was cached. *)
Definition par_post (mk : globals → request) : post response := λ g t r,
  par_shape t r ∧ jsons t = [] ∧ texts t = [] ∧ forallb warn_log (logs t) = true ∧
  Forall (λ qo, ∃ g', qo.1 = mk g' ∧ truthy (cmsAuthToken (gsess g')) = true) (fetches t).

(** The decision of the two rules on a history: [true] allows. *)
Definition dedupAllows (P : platform) (now : float) (pr payload : jsval) : bool :=
  negb (existsb (isRecentLog P (now - 6 * 60 * 60 * 1000)%float) (docsOf payload))
  && negb (existsb (isSameLocation P pr) (docsOf payload)).

(** [shouldPersistPositionReport] started with the variables [g0]. *)
Definition should_post (P : platform) (cfg : config) (pr : jsval) (g0 : globals) :
    post bool := λ g t r,
  match cmsCollectionUrl P cfg with
  | None => r = Ok false ∧ fetches t = [] ∧ texts t = [] ∧ jsons t = []
  | Some _ =>
      if truthy (cmsAuthToken (gsess g0)) then
        existsb is_skip_log (logs t) = false ∧
        length (fetches t) ≤ 2 ∧
        forallb (λ qo, is_query qo.1) (fetches t) = true ∧
        match texts t, jsons t with
        | [], [] => r = Ok true
        | [Ok _], [] => r = Ok true
        | [Err e], [] => r = Err e
        | [], [Err _] => r = Ok true
        | [], [Ok payload] => r = Ok (dedupAllows P (now (ghost g0)) pr payload)
        | _, _ => False
        end
      else r = Ok true ∧ fetches t = [] ∧ texts t = [] ∧ jsons t = []
  end.

(** [persistPositionReport]. *)
Definition persist_post (P : platform) (pr : jsval) : post unit := λ g t r,
  r = Ok tt ∧
  existsb is_skip_log (logs t) = false ∧
  length (creates t) ≤ 2 ∧
  length (fetches t) ≤ 4 ∧
  (creates t ≠ [] →
     match jsons t with
     | [] | [Err _] => True
     | [Ok payload] => ∃ t0, dedupAllows P t0 pr payload = true
     | _ => False
     end).

(* ================================================================== *)
(** ** Concrete inputs *)

(** The double quote, and the frame text [{"foo":"bar"}]. *)
Definition dquote : string := String "034"%char "".
Definition quoted (s : string) : string := dquote +:+ s +:+ dquote.
Definition foo_bar_text : string :=
  "{" +:+ quoted "foo" +:+ ":" +:+ quoted "bar" +:+ "}".

(** A platform for the examples. Its parser knows the one frame above
    and rejects every other text; its [Date] knows two time stamps. *)
Definition sample_parse (s : string) : option jsval :=
  if String.eqb s foo_bar_text then Some (JObj [("foo", JStr "bar")]) else None.

Definition sample_date (v : jsval) : float :=
  match v with
  | JNum x => x
  | JStr s =>
      if String.eqb s "2026-01-01T02:00:00.000Z" then 1767232800000%float
      else if String.eqb s "2026-01-01T10:00:00.000Z" then 1767261600000%float
      else nan
  | _ => nan
  end.

Definition P0 : platform :=
  {| JSON_parse := sample_parse;
     StringToNumber := λ _, nan;
     ObjectToNumber := λ _, nan;
     Date_getTime := sample_date;
     URL_resolve := λ path base, base +:+ path |}.

Definition cfg_of (v : variant) : config :=
  {| which := v;
     MMSI := Some "308015000";
     CMS_HOST_URL := Some "https://cms.example";
     CMS_EMAIL := Some "ais@example.org";
     CMS_PASSWORD := Some "secret";
     AIS_STREAM_KEY := Some "key" |}.

(** 2026-01-01T12:00:00Z. *)
Definition noon : float := 1767268800000%float.

(** A token is cached. *)
Definition g_authed : globals :=
  on_sess (set_cmsAuthToken (JStr "token-1")) (initial_globals noon).

(** An hour without a message. *)
Definition g_waited : globals :=
  on_conn (set_minutesWaited 60) (initial_globals noon).

(** A host that answers the same way at every suspension point, and
    no interference. *)
Definition answers (fetched : outcome response) (text : outcome string)
    (json : outcome jsval) (a : awaitable) : outcome (reply a) :=
  match a with
  | AFetch _ => fetched
  | AText _ => text
  | AJson _ => json
  | APromise _ => Ok (JStr "token-2")
  | ATick => Ok tt
  end.

Definition world_of (ans : ∀ a : awaitable, outcome (reply a)) : world :=
  {| answer := λ _, ans; interfere := λ _ g, g |}.

Definition http_ok : response := {| status := 200; statusText := "OK" |}.

(** A position report, and the history the store returns for it. *)
Definition sample_report : jsval :=
  JObj [("Latitude", JNum 10); ("Longitude", JNum 20); ("Sog", JNum 0)].

Definition history (docs : list jsval) : jsval := JObj [("docs", JArr docs)].

(** An entry created two hours before [noon]. *)
Definition recent_doc : jsval :=
  JObj [("createdAt", JStr "2026-01-01T10:00:00.000Z");
        ("location", JArr [JNum 1; JNum 2])].

(** The entry the store holds ten hours after the program posted
    [sample_report]: the [location] is the one [aisLogBody] sent. *)
Definition stored_doc (cfg : config) : jsval :=
  JObj [("createdAt", JStr "2026-01-01T02:00:00.000Z");
        ("location", getProp (aisLogBody cfg sample_report) "location")].

(** The history query succeeds and returns [docs]. *)
Definition w_history (docs : list jsval) : world :=
  world_of (answers (Ok http_ok) (Ok "") (Ok (history docs))).



(* ================================================================== *)
(** ** Further definitions: frames, the health endpoint, the timer table *)

(** The assignments a program makes, in every segment and in every task
    it starts, all satisfy [F]. *)
Fixpoint writes_only (F : (globals → globals) → Prop) {A : Type} (p : prog A) : Prop :=
  match p with
  | Ret _ | Throw _ => True
  | Get k => ∀ g, writes_only F (k g)
  | Modify f k => F f ∧ writes_only F k
  | Log _ k => writes_only F k
  | Await _ k => ∀ o, writes_only F (k o)
  | Spawn ch k => writes_only F ch ∧ ∀ p, writes_only F (k p)
  | Finally _ cb k => writes_only F cb ∧ writes_only F k
  end.

(** An assignment to a session variable. *)
Definition session_write (f : globals → globals) : Prop :=
  ∀ g, gconn (f g) = gconn g ∧ ghost (f g) = ghost g.

(** What a login attempt settles with, given the host's answers to its
    request and to the reading of the response. *)
Definition login_outcome (cfg : config) (url : string)
    (ans : ∀ a : awaitable, outcome (reply a)) : outcome jsval :=
  match ans (AFetch (loginRequest cfg url)) with
  | Err e => Err e
  | Ok resp =>
      if ok resp then
        match ans (AJson resp) with
        | Err e => Err e
        | Ok payload =>
            if truthy (tokenOf payload) then Ok (tokenOf payload) else Err LoginMissingToken
        end
      else
        match ans (AText resp) with
        | Err e => Err e
        | Ok body => Err (LoginFailed resp body)
        end
  end.

(** The handler of [GET /health]: the status code and the body. *)
Definition health (g : globals) : Z * jsval :=
  let status := if isSocketOpen (gconn g) then "connected" else "disconnected" in
  ((if isSocketOpen (gconn g) then 200 else 503)%Z, JObj [("websocket", JStr status)]).

(** Whether the last open or close event of a sequence is an open. *)
Definition last_signal (es : list conn_event) : bool :=
  fold_left (λ b e, match e with
                    | EvOpen _ => true
                    | EvClose _ _ => false
                    | _ => b
                    end) es false.

(** The open events delivered while the socket is [OPEN]. *)
Definition is_ready_open (e : conn_event) : bool :=
  match e with EvOpen OPEN => true | _ => false end.

(** The inactivity intervals. *)
Definition is_inactivity (e : timer_id * timer_kind) : bool :=
  match e.2 with InactivityInterval _ => true | _ => false end.

(** The inactivity intervals running in the host. *)
Definition inactivity_timers (g : globals) : list (timer_id * timer_kind) :=
  List.filter is_inactivity (timers (ghost g)).

(** The timer table and the three handles the program keeps: handles of
    the table are distinct and older than the next one; a handle the
    program holds names a timer of its own kind; the reconnect handle
    names a pending timer; every running inactivity interval is the one
    [inactivityTimer] holds. *)
Definition timers_wf (g : globals) : Prop :=
  let l := timers (ghost g) in
  NoDup l.*1 ∧
  (∀ e, e ∈ l → e.1 < nextTimer (ghost g)) ∧
  (∀ id, reconnectTimer (gconn g) = Some id → ∃ d, (id, ReconnectTimeout d) ∈ l) ∧
  (∀ id, inactivityTimer (gconn g) = Some id →
     id < nextTimer (ghost g) ∧ ∀ k, (id, k) ∈ l → is_inactivity (id, k) = true) ∧
  (∀ id, pingTimer (gconn g) = Some id →
     id < nextTimer (ghost g) ∧ ∀ k, (id, k) ∈ l → k = PingInterval) ∧
  (∀ e, e ∈ l → is_inactivity e = true → inactivityTimer (gconn g) = Some e.1).

(** After a disconnect the connection comes back: exactly one reconnect
    timer is pending, [reconnectTimer] holds it, and when it fires the
    timer is gone and a new socket is constructed. *)
Definition recovers (cfg : config) (g : globals) : Prop :=
  ∃ id d,
    pending_reconnects g = [(id, ReconnectTimeout d)] ∧
    reconnectTimer (gconn g) = Some id ∧
    let g' := conn_step cfg (EvTimer id) g in
    pending_reconnects g' = [] ∧
    reconnectTimer (gconn g') = None ∧
    reconnectAttempts (gconn g') = S (reconnectAttempts (gconn g)) ∧
    socket (gconn g') = Some (constructed (ghost g)) ∧
    constructed (ghost g') = S (constructed (ghost g)) ∧
    readyState (ghost g') = CONNECTING.

(** A request of the persistence path as the store should see it: sent
    to the collection URL with a non-empty bearer token; a query asks
    for the tracked vessel, a create carries the record built from the
    report. *)
Definition store_request (P : platform) (cfg : config) (pr : jsval) (q : request) : Prop :=
  match q with
  | QueryRequest url bearer vessel _ =>
      cmsCollectionUrl P cfg = Some url ∧ truthy bearer = true ∧ vessel = mmsi cfg
  | CreateRequest url bearer body =>
      cmsCollectionUrl P cfg = Some url ∧ truthy bearer = true ∧ body = aisLogBody cfg pr
  | LoginRequest _ _ _ => False
  end.

(** The keepalive intervals. *)
Definition is_ping (e : timer_id * timer_kind) : bool :=
  match e.2 with PingInterval => true | _ => false end.

(* ================================================================== *)
(** ** Lemmas: the program logic *)

#[local] Arguments ensureCmsSession : simpl never.
#[local] Arguments await_call : simpl never.
#[local] Arguments performAuthorizedRequest : simpl never.
#[local] Arguments shouldPersistPositionReport : simpl never.
#[local] Arguments persistPositionReport : simpl never.
#[local] Arguments fetchWith : simpl never.
#[local] Arguments flush : simpl never.

Ltac prog_cases p :=
  induction p as [| | ? k IH | ? h k IH | ? l k IH | ? a k IH | ? ch IHc k IHk
                 | ? q cb IHcb k IHk].

Lemma wp_mono {A} (p : prog A) : ∀ g (Q Q' : globals → Prop),
  (∀ g', Q g' → Q' g') → wp p g Q → wp p g Q'.
Proof.
  prog_cases p; cbn; intros g Q Q' HQ Hwp; eauto.
  eapply IHc; [|eassumption]. cbn. intros g1 Hk p. eapply IHk; eauto.
Qed.

Lemma wp_prefix {A} (p : prog A) : ∀ c g Q, wp p g Q → Q (prefix p c g).1.2.
Proof.
  prog_cases p; cbn; intros c g Q Hwp.
  - done.
  - done.
  - by apply IH.
  - by apply IH.
  - specialize (IH c g Q Hwp). by destruct (prefix k c g) as [[? ?] ?].
  - done.
  - specialize (IHc (S c) g _ Hwp). destruct (prefix ch (S c) g) as [[c1 g1] t1].
    cbn in IHc. specialize (IHk c c1 g1 Q (IHc c)).
    by destruct (prefix (k c) c1 g1) as [[? ?] ?].
  - specialize (IHk c g Q Hwp). by destruct (prefix k c g) as [[? ?] ?].
Qed.

Lemma preserves_bind {A B} (I : globals → Prop) (m : prog A) (f : A → prog B) :
  preserves I m → (∀ a, preserves I (f a)) → preserves I (m ≫= f).
Proof.
  unfold preserves, mbind, prog_bind. intros Hm Hf g Hg. specialize (Hm g Hg).
  clear Hg. revert g Hm.
  prog_cases m; cbn; intros g Hm; eauto.
  eapply wp_mono; [|exact Hm]. cbn. intros g1 Hk p. eauto.
Qed.

Lemma preserves_try {A} (I : globals → Prop) (m : prog A) :
  preserves I m → preserves I (try_ m).
Proof.
  unfold preserves. intros Hm g Hg. specialize (Hm g Hg). clear Hg. revert g Hm.
  prog_cases m; cbn; intros g Hm; eauto.
  eapply wp_mono; [|exact Hm]. cbn. intros g1 Hk p. eauto.
Qed.

Lemma preserves_await_call {A} (I : globals → Prop) (m : prog A) :
  preserves I m → preserves I (await_call m).
Proof.
  intros Hm. unfold await_call. apply preserves_bind; [by apply preserves_try|].
  intros o g Hg. done.
Qed.

Lemma preserves_run_handler (I : globals → Prop) (h : prog unit) g :
  preserves I h → I g → I (run_handler h g).
Proof. intros Hh Hg. unfold run_handler. apply (wp_prefix h 0 g I). auto. Qed.

Lemma preserves_modify (I : globals → Prop) (f : globals → globals) :
  (∀ g, I g → I (f g)) → preserves I (modify f).
Proof. intros Hf g Hg. cbn. auto. Qed.

Lemma preserves_log (I : globals → Prop) l : preserves I (log l).
Proof. intros g Hg. done. Qed.

Lemma preserves_ret {A} (I : globals → Prop) (a : A) : preserves I (mret a).
Proof. intros g Hg. done. Qed.

Lemma preserves_throw {A} (I : globals → Prop) e : preserves I (@Throw A e).
Proof. intros g Hg. done. Qed.

Lemma preserves_await (I : globals → Prop) a : preserves I (await a).
Proof. intros g Hg. done. Qed.

Lemma preserves_get_any {A} (I : globals → Prop) (k : globals → prog A) :
  (∀ g, preserves I (k g)) → preserves I (get ≫= k).
Proof. intros Hk g Hg. cbn. by apply Hk. Qed.

Create HintDb preserves.

Ltac pres_step :=
  lazymatch goal with
  | |- preserves _ (log _) => apply preserves_log
  | |- preserves _ (mret _) => apply preserves_ret
  | |- preserves _ (Throw _) => apply preserves_throw
  | |- preserves _ (await _) => apply preserves_await
  | |- preserves _ (await_call _) => apply preserves_await_call
  | |- preserves _ (try_ _) => apply preserves_try
  | |- preserves _ (get ≫= _) => apply preserves_get_any; intros ?
  | |- preserves _ (_ ≫= _) => apply preserves_bind; [|intros ?]
  | |- preserves _ (match ?x with _ => _ end) => destruct x
  | |- preserves _ _ => solve [auto with preserves]
  end.

Ltac pres := repeat pres_step.

Lemma wpo_mono {A} (p : prog A) : ∀ g (Q Q' : post A),
  (∀ g' t r, Q g' t r → Q' g' t r) → wpo p g Q → wpo p g Q'.
Proof.
  prog_cases p; cbn; intros g Q Q' HQ Hwp; eauto.
  - eapply IH; [|exact Hwp]. cbn. eauto.
  - intros o g'. eapply IH; [|apply Hwp]. cbn. eauto.
  - intros c. eapply IHk; [|apply Hwp]. cbn. eauto.
  - eapply IHk; [|exact Hwp]. cbn. eauto.
Qed.

(** Soundness: what [wpo] proves holds of every run. *)
Lemma wpo_sound {A} (p : prog A) : ∀ w c g (Q : post A),
  wpo p g Q →
  Q (final (run_open w p c g)) (trace (run_open w p c g)) (result (run_open w p c g)).
Proof.
  prog_cases p; cbn; intros w c g Q Hwp.
  - done.
  - done.
  - by apply IH.
  - by apply IH.
  - apply (IH w c g _ Hwp).
  - apply (IH _ w (S c) _ _ (Hwp _ _)).
  - specialize (Hwp c). destruct (prefix ch (S c) g) as [[c1 g1] t1]. cbn in *.
    apply (IHk _ w c1 g1 _ Hwp).
  - apply (IHk w c g _ Hwp).
Qed.

Lemma wpo_bind {A B} (m : prog A) (f : A → prog B) : ∀ g (Q : post B),
  wpo m g (λ g1 t1 r1,
    match r1 with
    | Ok a => wpo (f a) g1 (λ g2 t2 r2, Q g2 (t1 ++ t2) r2)
    | Err e => Q g1 t1 (Err e)
    end) →
  wpo (bind m f) g Q.
Proof.
  prog_cases m; cbn; intros g Q Hwp.
  - eapply wpo_mono; [|exact Hwp]. done.
  - done.
  - by apply IH.
  - by apply IH.
  - apply IH. eapply wpo_mono; [|exact Hwp]. cbn. intros g' t [a|e] Hq; [|done].
    eapply wpo_mono; [|exact Hq]. done.
  - intros o g'. apply IH. eapply wpo_mono; [|apply Hwp]. cbn.
    intros g'' t [b|e] Hq; [|done].
    eapply wpo_mono; [|exact Hq]. done.
  - intros c. apply IHk. eapply wpo_mono; [|apply Hwp]. cbn.
    intros g'' t [b|e] Hq; [|done].
    eapply wpo_mono; [|exact Hq]. cbn. intros g2 t2 r2. by rewrite <- app_assoc.
  - apply IHk. eapply wpo_mono; [|apply Hwp]. cbn. intros g'' t [b|e] Hq; [|done].
    eapply wpo_mono; [|exact Hq]. done.
Qed.

Lemma wpo_try {A} (m : prog A) : ∀ g (Q : post (outcome A)),
  wpo m g (λ g1 t1 r1, Q g1 t1 (Ok r1)) → wpo (try_ m) g Q.
Proof.
  prog_cases m; cbn; intros g Q Hwp.
  - done.
  - done.
  - by apply IH.
  - by apply IH.
  - by apply IH.
  - intros o g'. by apply IH.
  - intros c. by apply IHk.
  - by apply IHk.
Qed.

Lemma wpo_await_call {A} (body : prog A) g (Q : post A) :
  wpo body g (λ g1 t1 r1, ∀ (o : outcome unit) g2, Q g2 (t1 ++ [OAwait ATick o]) r1) →
  wpo (await_call body) g Q.
Proof.
  intros H. unfold await_call. apply wpo_bind. apply wpo_try.
  eapply wpo_mono; [|exact H]. cbn. intros g1 t1 r1 HQ o g2.
  destruct r1; cbn; apply HQ.
Qed.

Lemma wpo_bind_call {A B} (E : post A) (body : prog A) (f : A → prog B) g (Q : post B) :
  wpo body g E →
  (∀ g1 t1 r1, E g1 t1 r1 → ∀ (o : outcome unit) g2,
     match r1 with
     | Ok a => wpo (f a) g2 (λ g3 t3 r3, Q g3 (t1 ++ OAwait ATick o :: t3) r3)
     | Err e => Q g2 (t1 ++ [OAwait ATick o]) (Err e)
     end) →
  wpo (bind (await_call body) f) g Q.
Proof.
  intros Hb Hf. apply wpo_bind, wpo_await_call.
  eapply wpo_mono; [|exact Hb]. cbn. intros g1 t1 r1 HE o g2.
  specialize (Hf g1 t1 r1 HE o g2). destruct r1; [|done].
  eapply wpo_mono; [|exact Hf]. cbn. intros g3 t3 r3. by rewrite <- app_assoc.
Qed.

Lemma wpo_bind_try_call {A B} (E : post A) (body : prog A) (f : outcome A → prog B) g
    (Q : post B) :
  wpo body g E →
  (∀ g1 t1 r1, E g1 t1 r1 → ∀ (o : outcome unit) g2,
     wpo (f r1) g2 (λ g3 t3 r3, Q g3 (t1 ++ OAwait ATick o :: t3) r3)) →
  wpo (bind (try_ (await_call body)) f) g Q.
Proof.
  intros Hb Hf. apply wpo_bind, wpo_try, wpo_await_call.
  eapply wpo_mono; [|exact Hb]. cbn. intros g1 t1 r1 HE o g2.
  specialize (Hf g1 t1 r1 HE o g2).
  eapply wpo_mono; [|exact Hf]. cbn. intros g3 t3 r3. by rewrite <- app_assoc.
Qed.

(** Normalises the projections of a trace built by appending. *)
Ltac trace_leaf :=
  unfold creates, fetches, jsons, texts, rejected, logs in *; cbn;
  repeat (progress (
    rewrite ?omap_app, ?forallb_app, ?existsb_app, ?List.filter_app, ?length_app,
      ?app_nil_r, ?orb_false_r, ?andb_true_r; cbn;
    repeat match goal with
           | H : omap _ ?t = _ |- _ => rewrite !H
           | H : List.filter _ ?t = _ |- _ => rewrite !H
           | H : forallb _ ?t = _ |- _ => rewrite !H
           | H : existsb _ ?t = _ |- _ => rewrite !H
           end; cbn));
  repeat split; try done; try lia; eauto.

(* ================================================================== *)
(** ** Lemmas: the reconnect scheduler *)

Lemma reconnectDelay_cap n : (reconnectDelay n ≤ 30000)%Z.
Proof. unfold reconnectDelay. lia. Qed.

Lemma reconnectDelay_mono n k : (reconnectDelay n ≤ reconnectDelay (n + k))%Z.
Proof.
  unfold reconnectDelay.
  assert (2 ^ Z.of_nat n ≤ 2 ^ Z.of_nat (n + k))%Z by (apply Z.pow_le_mono_r; lia).
  lia.
Qed.

Lemma filter_drop_le id l :
  length (List.filter is_reconnect (drop_timer id l)) ≤ length (List.filter is_reconnect l).
Proof.
  induction l as [|[i k] l IH]; [done|].
  unfold drop_timer in *. rewrite filter_cons. cbn [fst].
  case_decide; cbn; destruct (is_reconnect (i, k)); cbn; lia.
Qed.

Lemma find_timer_pending id d l :
  find_timer id l = Some (ReconnectTimeout d) →
  List.filter is_reconnect l ≠ [].
Proof.
  induction l as [|[j k] l IH]; [done|]. cbn [find_timer].
  destruct (Nat.eqb j id).
  - intros [= ->]. done.
  - intros Hf. cbn. destruct (is_reconnect (j, k)); [done|auto].
Qed.

Lemma filter_drop_fired id d l :
  find_timer id l = Some (ReconnectTimeout d) →
  length (List.filter is_reconnect l) ≤ 1 →
  List.filter is_reconnect (drop_timer id l) = [].
Proof.
  induction l as [|[i k] l IH]; [done|]. cbn [find_timer].
  pose proof (filter_drop_le id l) as Hle.
  unfold drop_timer in *. rewrite filter_cons. cbn [fst].
  destruct (Nat.eqb_spec i id) as [->|Hne].
  - intros [= ->]. cbn. intros Hlen. rewrite decide_False by naive_solver.
    apply length_zero_iff_nil. lia.
  - intros Hf. rewrite decide_True by done. cbn.
    destruct (is_reconnect (i, k)); cbn; intros Hlen; [|auto].
    apply find_timer_pending in Hf.
    destruct (List.filter is_reconnect l); [done|cbn in Hlen; lia].
Qed.

Ltac unfold_handlers :=
  unfold conn_step, fireTimer, handleOpen, handleClose, handleError,
    sendSubscription, startInactivityTimer, clearInactivityTimer, inactivityTick,
    pingCallback, reconnectCallback, scheduleReconnect, connect, clearTimer,
    setTimer, modify, log, get;
  unfold mbind, prog_bind, mret, prog_ret.

Ltac one_timer_leaf :=
  intros g Hg; unfold one_timer, pending_reconnects in *; unfold_handlers; cbn;
  repeat (case_match; cbn);
  simplify_eq;
  rewrite ?List.filter_app, ?length_app; cbn;
  repeat match goal with
  | |- context [List.filter is_reconnect (drop_timer ?t ?l)] =>
      generalize (filter_drop_le t l);
      generalize (List.filter is_reconnect (drop_timer t l)); intros ? ?
  end;
  try lia.

Ltac crunch :=
  unfold_handlers; cbn; repeat (case_match; cbn); simplify_eq; try done.

Lemma one_timer_clearTimer t : preserves one_timer (clearTimer t).
Proof. one_timer_leaf. Qed.

Lemma one_timer_setTimer k : is_reconnect (0, k) = false → preserves one_timer (setTimer k).
Proof.
  intros Hk. one_timer_leaf.
  all: unfold is_reconnect in *; cbn in *; rewrite Hk; cbn; lia.
Qed.

Lemma one_timer_conn (f : conn → conn) :
  (∀ c, reconnectTimer (f c) = reconnectTimer c) → preserves one_timer (modify (on_conn f)).
Proof. intros Hf g Hg. unfold one_timer in *. cbn. by rewrite Hf. Qed.

Lemma one_timer_host (f : host → host) :
  (∀ h, timers (f h) = timers h) → preserves one_timer (modify (on_host f)).
Proof. intros Hf g Hg. unfold one_timer, pending_reconnects in *. cbn. by rewrite Hf. Qed.

#[local] Hint Resolve one_timer_clearTimer one_timer_setTimer one_timer_conn
  one_timer_host : preserves.

Lemma one_timer_scheduleReconnect : preserves one_timer scheduleReconnect.
Proof. one_timer_leaf. Qed.

Lemma one_timer_connect : preserves one_timer connect.
Proof. unfold connect. pres. Qed.

Lemma one_timer_clearInactivityTimer : preserves one_timer clearInactivityTimer.
Proof. unfold clearInactivityTimer. pres. Qed.

Lemma one_timer_startInactivityTimer cfg : preserves one_timer (startInactivityTimer cfg).
Proof. unfold startInactivityTimer. pres. Qed.

#[local] Hint Resolve one_timer_scheduleReconnect one_timer_connect
  one_timer_clearInactivityTimer one_timer_startInactivityTimer : preserves.

Lemma one_timer_sendSubscription cfg : preserves one_timer (sendSubscription cfg).
Proof. unfold sendSubscription. pres. Qed.

#[local] Hint Resolve one_timer_sendSubscription : preserves.

Lemma one_timer_handleOpen cfg : preserves one_timer (handleOpen cfg).
Proof. unfold handleOpen. pres. Qed.

Lemma one_timer_handleClose cfg code : preserves one_timer (handleClose cfg code).
Proof. unfold handleClose. pres. Qed.

Lemma one_timer_handleError err : preserves one_timer (handleError err).
Proof. unfold handleError. pres. Qed.

Lemma one_timer_fireTimer cfg id : preserves one_timer (fireTimer cfg id).
Proof.
  intros g Hg. unfold fireTimer. cbn.
  destruct (find_timer id (timers (ghost g))) as [[d|p|]|] eqn:Hf; cbn.
  - unfold one_timer, pending_reconnects in *. cbn.
    rewrite (filter_drop_fired id d); [cbn; lia | done | revert Hg; case_match; lia].
  - unfold inactivityTick. cbn. case_match; done.
  - unfold pingCallback. cbn. case_match; done.
  - done.
Qed.

Lemma one_timer_step cfg e g : one_timer g → one_timer (conn_step cfg e g).
Proof.
  intros Hg. destruct e; unfold conn_step; apply preserves_run_handler;
    auto using one_timer_handleOpen, one_timer_handleClose, one_timer_handleError,
      one_timer_fireTimer.
Qed.

Lemma one_timer_run cfg es t : one_timer (conn_run cfg es t).
Proof.
  unfold conn_run.
  assert (one_timer (run_handler connect (initial_globals t))) as H0.
  { apply preserves_run_handler; [apply one_timer_connect|]. unfold one_timer. cbn. lia. }
  revert H0. generalize (run_handler connect (initial_globals t)).
  induction es as [|e es IH]; intros g Hg; cbn; [done|].
  apply IH. by apply one_timer_step.
Qed.

Lemma attempts_step cfg e g :
  reconnectAttempts (gconn (conn_step cfg e g)) =
    match e with
    | EvOpen _ => 0
    | _ => if fires_reconnect e g then S (reconnectAttempts (gconn g))
           else reconnectAttempts (gconn g)
    end.
Proof.
  destruct e; unfold conn_step, run_handler.
  - apply (wp_prefix _ 0 _ (λ g', reconnectAttempts (gconn g') = 0)). crunch.
  - apply (wp_prefix _ 0 _ (λ g', reconnectAttempts (gconn g') = reconnectAttempts (gconn g))).
    crunch.
  - apply (wp_prefix _ 0 _ (λ g', reconnectAttempts (gconn g') = reconnectAttempts (gconn g))).
    crunch.
  - apply (wp_prefix _ 0 _ (λ g', reconnectAttempts (gconn g') = _)).
    unfold fires_reconnect. crunch.
Qed.

(* ================================================================== *)
(** ** Lemmas: what the runs of each function show *)

Ltac wpo_step :=
  match goal with
  | |- ∀ _, _ => intros ?
  | |- context [settle ?o] => is_var o; destruct o
  | |- context [match ?x with _ => _ end] => destruct x eqn:?
  end.

Lemma ensure_spec P cfg g : wpo (ensureCmsSession P cfg) g ensure_post.
Proof.
  unfold ensureCmsSession, loginTask, loginToCms, clearPendingLogin, warnMissingCmsHost,
    warnMissingCmsCreds, await_call, await, modify, log, get, ensure_post,
    fetches, jsons, texts, rejected, logs.
  unfold mbind, prog_bind, mret, prog_ret. cbn.
  repeat (first [progress cbn | wpo_step]); simplify_eq; try done.
Qed.

Ltac par_leaf :=
  unfold par_post, par_shape, auth_failure_reply;
  unfold creates, fetches, jsons, texts, rejected, logs in *; cbn;
  repeat (rewrite ?omap_app, ?forallb_app; cbn;
          repeat match goal with
          | H : omap _ ?t = _ |- _ => rewrite !H
          | H : forallb _ ?t = _ |- _ => rewrite !H
          end; cbn);
  repeat match goal with H : is_auth_failure _ = _ |- _ => rewrite !H end;
  split_and!; try done; eauto 6;
  repeat (apply Forall_cons; split; [cbn; eauto|]); try apply Forall_nil; try done.

Ltac par_ensure :=
  eapply wpo_bind_call; [apply ensure_spec|];
  let r := fresh "r" in
  intros ? ? r (? & ? & ? & ? & ?) ? ?; destruct r; cbn.

Ltac par_token :=
  match goal with
  | |- context [truthy (cmsAuthToken (gsess ?g))] =>
      destruct (truthy (cmsAuthToken (gsess g))) eqn:?; cbn
  end.

Ltac par_tail :=
  par_token;
  [ intros [?resp|?e] ?; cbn;
    [ destruct (is_auth_failure resp) eqn:?; cbn;
      [ par_ensure;
        [ par_token; [ intros [?|?] ?; cbn; par_leaf | par_leaf ]
        | par_leaf ]
      | par_leaf ]
    | par_leaf ]
  | par_leaf ].

Lemma par_spec P cfg mk g :
  wpo (performAuthorizedRequest P cfg (fetchWith mk)) g (par_post mk).
Proof.
  unfold performAuthorizedRequest, fetchWith, await, modify, log, get.
  unfold mbind, prog_bind, mret, prog_ret. cbn.
  destruct (truthy (cmsAuthToken (gsess g))) eqn:Htok; cbn.
  - rewrite Htok; cbn. intros [?resp|?e] ?; cbn.
    + destruct (is_auth_failure resp) eqn:?; cbn.
      * par_ensure; [|par_leaf].
        par_token; [ intros [?|?] ?; cbn; par_leaf | par_leaf ].
      * par_leaf.
    + par_leaf.
  - apply wpo_bind. par_ensure; [|par_leaf]. par_tail.
Qed.

Lemma warn_not_skip l : warn_log l = true → is_skip_log l = false.
Proof.
  destruct l as [[] s| | | |]; cbn; try done.
  intros [H|H]%orb_true_iff; apply String.eqb_eq in H; by subst.
Qed.

Lemma warn_logs_no_skip ls : forallb warn_log ls = true → existsb is_skip_log ls = false.
Proof.
  induction ls as [|l ls IH]; cbn; [done|]. intros [H1 H2]%andb_true_iff.
  by rewrite (warn_not_skip l H1), IH.
Qed.

Lemma par_fetches_le t r : par_shape t r → length (fetches t) ≤ 2.
Proof. unfold par_shape. repeat case_match; cbn; try done; lia. Qed.

Lemma par_creates_le (mk : globals → request) g t r :
  par_post mk g t r → length (fetches t) ≤ 2 ∧ length (creates t) ≤ 2.
Proof.
  intros (Hs & _). apply par_fetches_le in Hs. split; [done|].
  unfold creates. etrans; [apply filter_length_le|done].
Qed.

Lemma par_queries (mk : globals → request) fs :
  (∀ g, is_query (mk g) = true) →
  Forall (λ qo : request * outcome response, ∃ g', qo.1 = mk g' ∧
            truthy (cmsAuthToken (gsess g')) = true) fs →
  forallb (λ qo, is_query qo.1) fs = true.
Proof.
  intros Hmk. induction 1 as [|[q o] fs (g' & Hq & _) _ IH]; cbn; [done|].
  cbn in Hq. by rewrite Hq, Hmk, IH.
Qed.

Lemma queries_no_creates fs :
  forallb (λ qo : request * outcome response, is_query qo.1) fs = true →
  List.filter (λ qo, is_create qo.1) fs = [].
Proof.
  induction fs as [|[q o] fs IH]; cbn; [done|]. intros [H1 H2]%andb_true_iff.
  destruct q; cbn in *; try done. auto.
Qed.

Lemma should_spec P cfg pr g :
  wpo (shouldPersistPositionReport P cfg pr) g (should_post P cfg pr g).
Proof.
  unfold shouldPersistPositionReport, should_post, fetchRecentLogs, warnMissingCmsHost,
    await, modify, log, get.
  unfold mbind, prog_bind, mret, prog_ret.
  destruct (cmsCollectionUrl P cfg) as [url|]; cbn.
  2: { destruct (missingCmsHostWarned (gsess g)); cbn; done. }
  destruct (truthy (cmsAuthToken (gsess g))) eqn:Htok; cbn; [|done].
  eapply wpo_bind_try_call; [apply par_spec|].
  intros g1 t1 r1 (Hshape & Hj & Ht & Hl & Hq) o g2.
  apply warn_logs_no_skip in Hl. apply par_fetches_le in Hshape.
  apply par_queries in Hq; [|done].
  destruct r1 as [resp|e]; cbn; [|trace_leaf].
  destruct (ok resp); cbn; intros [v|?] ?; cbn; try trace_leaf.
  unfold dedupAllows.
  destruct (existsb (isRecentLog P _) (docsOf v)) eqn:?; cbn; [trace_leaf|].
  destruct (existsb (isSameLocation P pr) (docsOf v)) eqn:?; cbn.
  - trace_leaf.
  - trace_leaf.
Qed.

Lemma persist_spec P cfg pr g : wpo (persistPositionReport P cfg pr) g (persist_post P pr).
Proof.
  unfold persistPositionReport, persist_post, postAisLog, warnMissingCmsHost,
    warnMissingCmsCreds, await, modify, log, get.
  unfold mbind, prog_bind, mret, prog_ret.
  destruct (cmsCollectionUrl P cfg) as [url|] eqn:Hurl; cbn.
  2: { destruct (missingCmsHostWarned (gsess g)); cbn; trace_leaf. }
  destruct (cmsLoginUrl P cfg) as [lurl|]; cbn.
  2: { destruct (missingCmsHostWarned (gsess g)); cbn; trace_leaf. }
  destruct (credsMissing cfg); cbn.
  { destruct (missingCmsCredsWarned (gsess g)); cbn; trace_leaf. }
  eapply wpo_bind_try_call; [apply ensure_spec|].
  intros g1 t1 r1 (Hf1 & Hj1 & Ht1 & Hr1 & Hl1) o1 g2.
  apply warn_logs_no_skip in Hl1.
  destruct r1 as [v|e]; cbn; [|trace_leaf].
  destruct (truthy (cmsAuthToken (gsess g2))) eqn:Htok; cbn; [|trace_leaf].
  eapply wpo_bind_try_call; [apply should_spec|].
  intros g3 t3 r3 Hs o3 g4. unfold should_post in Hs. rewrite Hurl, Htok in Hs.
  destruct Hs as (Hl3 & Hn3 & Hq3 & Hr3).
  pose proof (queries_no_creates _ Hq3) as Hc3.
  destruct r3 as [[]|e]; cbn; [|trace_leaf|trace_leaf].
  apply wpo_bind, wpo_try.
  eapply wpo_bind_call; [apply par_spec|].
  intros g5 t5 r5 Hp o5 g6.
  pose proof (par_creates_le _ _ _ _ Hp) as [Hn5 Hc5].
  destruct Hp as (_ & Hj5 & Ht5 & Hl5 & _). apply warn_logs_no_skip in Hl5.
  assert (match jsons t3 with
          | [] | [Err _] => True
          | [Ok payload] => ∃ t0, dedupAllows P t0 pr payload = true
          | _ => False
          end) as Hallow.
  { destruct (texts t3) as [|[] []], (jsons t3) as [|[] []]; try done.
    injection Hr3 as Hr3. eauto. }
  clear Hr3.
  destruct r5 as [resp|e]; cbn; [|trace_leaf].
  destruct (ok resp); cbn; [trace_leaf|].
  intros [body|e] g7; cbn; trace_leaf.
Qed.

(* ================================================================== *)
(** ** Lemmas: the pool of promises *)

Lemma quiet_exec {A} (p : prog A) : ∀ s, quiet p →
  pool (exec_sync p s).1 = pool s ∧
  network (exec_sync p s).1 = network s ∧
  jobs (exec_sync p s).1 = jobs s ∧
  pendingCmsLogin (gsess (glob (exec_sync p s).1)) = pendingCmsLogin (gsess (glob s)) ∧
  susp_quiet (exec_sync p s).2.
Proof.
  prog_cases p; cbn; intros s Hq; try done.
  - by apply IH.
  - destruct Hq as [Hh Hk]. destruct (IH (set_glob (h (glob s)) s) Hk) as (?&?&?&Hp&?).
    split_and!; try done. rewrite Hp. cbn. apply Hh.
  - destruct (IH (set_console (console s ++ [l]) s) Hq) as (?&?&?&?&?). done.
  - destruct Hq as (Ha & Hk). split_and!; try done; destruct a; cbn; try done.
    by destruct (Ha r).
Qed.

Lemma loginTask_exec P cfg url s :
  cmsLoginUrl P cfg = Some url → credsMissing cfg = false →
  ∃ k, exec_sync (loginTask P cfg) s
       = (set_network (network s ++ [loginRequest cfg url]) s,
          SAwait (AFetch (loginRequest cfg url)) k)
       ∧ ∀ o, quiet (k o).
Proof.
  intros Hurl Hcreds.
  unfold loginTask, loginToCms, await_call, await, modify, log, get.
  unfold mbind, prog_bind, mret, prog_ret. rewrite Hurl, Hcreds. cbn.
  eexists. split; [reflexivity|].
  intros [resp|e]; cbn; [|done].
  destruct (ok resp); cbn.
  - split; [done|]. intros [payload|e]; cbn; [|done].
    destruct (truthy (tokenOf payload)); cbn; done.
  - split; [done|]. intros [body|e]; cbn; done.
Qed.

Lemma flush_nil s : jobs s = [] → flush s = s.
Proof. intros H. unfold flush. rewrite H. cbn. destruct s; cbn in *; by subst. Qed.

Lemma flush_clear s :
  jobs s = [clearPendingLogin] →
  flush s = set_glob (on_sess (set_pendingCmsLogin None) (glob s)) (set_jobs [] s).
Proof. intros H. unfold flush. rewrite H. done. Qed.

Lemma tracked_same s s' :
  pool s' = pool s → jobs s' = jobs s →
  pendingCmsLogin (gsess (glob s')) = pendingCmsLogin (gsess (glob s)) →
  tracked s → tracked s'.
Proof. unfold tracked. intros -> -> ->. done. Qed.

Lemma ensure_exec P cfg s :
  tracked s →
  tracked (call (ensureCmsSession P cfg) s).1 ∧
  network (call (ensureCmsSession P cfg) s).1 = network s ++
    (if starts_login P cfg s
     then [loginRequest cfg (default "" (cmsLoginUrl P cfg))] else []) ∧
  (call (ensureCmsSession P cfg) s).2 = ensure_result P cfg s ∧
  cmsAuthToken (gsess (glob (call (ensureCmsSession P cfg) s).1))
    = cmsAuthToken (gsess (glob s)) ∧
  pendingCmsLogin (gsess (glob (call (ensureCmsSession P cfg) s).1))
    = (if starts_login P cfg s then Some (length (pool s))
       else pendingCmsLogin (gsess (glob s))).
Proof.
  intros Htr. pose proof Htr as (Hjobs & Hrun & Hpend).
  unfold call, starts_login, ensure_result.
  unfold ensureCmsSession, warnMissingCmsHost, warnMissingCmsCreds, clearPendingLogin,
    await, modify, log, get.
  unfold mbind, prog_bind, mret, prog_ret. cbn.
  destruct (truthy (cmsAuthToken (gsess (glob s)))) eqn:Htok; cbn.
  { rewrite flush_nil by done. rewrite app_nil_r. done. }
  destruct (cmsLoginUrl P cfg) as [url|] eqn:Hurl; cbn.
  2: { destruct (missingCmsHostWarned (gsess (glob s))); cbn; rewrite flush_nil by done;
       cbn; rewrite app_nil_r; (split; [|done]); by eapply tracked_same. }
  destruct (credsMissing cfg) eqn:Hcreds; cbn.
  { destruct (missingCmsCredsWarned (gsess (glob s))); cbn; rewrite flush_nil by done;
       cbn; rewrite app_nil_r; (split; [|done]); by eapply tracked_same. }
  destruct (pendingCmsLogin (gsess (glob s))) as [p|] eqn:Hp; cbn.
  { rewrite Hp. cbn. rewrite flush_nil by done. rewrite app_nil_r. cbn. by rewrite Hp. }
  destruct (loginTask_exec P cfg url s Hurl Hcreds) as (k & Hexec & Hk).
  rewrite Hexec. cbn. unfold register. cbn.
  rewrite lookup_app_r by done. rewrite Nat.sub_diag. cbn.
  rewrite flush_nil by done. cbn.
  split_and!; try done.
  unfold tracked. cbn. split_and!; [done| |].
  - intros i ti Hi Hri.
    destruct (decide (i = length (pool s))) as [->|Hne].
    + rewrite list_lookup_insert_eq in Hi by (rewrite length_app; cbn; lia).
      injection Hi as <-. done.
    + rewrite list_lookup_insert_ne in Hi by done.
      apply lookup_app_Some in Hi as [Hi|[Hge Hi]].
      * by destruct (Hrun _ _ Hi Hri).
      * apply list_lookup_singleton_Some in Hi as [Hi _]. lia.
  - intros i [= <-]. rewrite list_lookup_insert_eq by (rewrite length_app; cbn; lia). eauto.
Qed.

Lemma complete_exec t ans s :
  tracked s → tracked (complete t ans s) ∧ network (complete t ans s) = network s.
Proof.
  intros Htr. pose proof Htr as (Hjobs & Hrun & Hpend). unfold complete.
  destruct (pool s !! t) as [[a k fin|o0]|] eqn:Ht; [|done|done].
  destruct (reply_for ans (pool s) a) as [o|]; [|done].
  destruct (Hrun _ _ Ht eq_refl) as (Hp & -> & Hk).
  destruct (quiet_exec (k o) s (Hk o)) as (Hpool & Hnet & Hj & Hpd & Hq).
  destruct (exec_sync (k o) s) as [s1 r]. cbn in *.
  assert (t < length (pool s)) as Hlt by (by eapply lookup_lt_Some).
  destruct r as [o'|a' k']; cbn.
  - rewrite Hpool, Ht, Hj, Hjobs. cbn. rewrite flush_clear by done. cbn.
    split; [|done]. unfold tracked. cbn. split_and!; [done| |done].
    intros i ti Hi Hri.
    destruct (decide (i = t)) as [->|Hne].
    + rewrite list_lookup_insert_eq in Hi by done. injection Hi as <-. done.
    + rewrite list_lookup_insert_ne in Hi by done.
      destruct (Hrun _ _ Hi Hri) as (Hpi & _). congruence.
  - rewrite Hpool, Ht. cbn. rewrite flush_nil by (cbn; congruence). cbn.
    split; [|done]. unfold tracked. cbn. rewrite Hj, Hpd. split_and!; [done| |].
    + intros i ti Hi Hri.
      destruct (decide (i = t)) as [->|Hne].
      * rewrite list_lookup_insert_eq in Hi by done. injection Hi as <-. done.
      * rewrite list_lookup_insert_ne in Hi by done. eauto.
    + intros i Hi. rewrite Hp in Hi. injection Hi as <-.
      rewrite list_lookup_insert_eq by done. eauto.
Qed.

Lemma tracked_step P cfg e s : tracked s → tracked (session_step P cfg e s).
Proof.
  intros Htr. destruct e; cbn.
  - by apply (ensure_exec P cfg s).
  - by eapply tracked_same.
  - by apply complete_exec.
Qed.

Lemma tracked_run P cfg es t : tracked (session_run P cfg es t).
Proof.
  unfold session_run.
  assert (tracked (initial_sched (initial_globals t))) as H0 by (split_and!; done).
  revert H0. generalize (initial_sched (initial_globals t)).
  induction es as [|e es IH]; intros s Hs; cbn; [done|].
  apply IH. by apply tracked_step.
Qed.

Lemma tracked_in_flight s : tracked s → length (in_flight s) ≤ 1.
Proof.
  intros (_ & Hrun & _). unfold in_flight.
  assert (∀ i j ti tj, pool s !! i = Some ti → pool s !! j = Some tj →
          is_running ti = true → is_running tj = true → i = j) as Huniq.
  { intros i j ti tj Hi Hj Hri Hrj.
    destruct (Hrun _ _ Hi Hri) as (Hpi & _), (Hrun _ _ Hj Hrj) as (Hpj & _). congruence. }
  clear Hrun. induction (pool s) as [|x l IH]; cbn; [lia|].
  destruct (is_running x) eqn:Hx; cbn.
  - assert (List.filter is_running l = []) as ->; [|cbn; lia].
    destruct (List.filter is_running l) as [|y l'] eqn:Hf; [done|].
    assert (In y (List.filter is_running l)) as Hy by (rewrite Hf; left; done).
    apply List.filter_In in Hy as [Hin Hry].
    apply list_elem_of_In, list_elem_of_lookup in Hin as [j Hj].
    specialize (Huniq 0 (S j) x y eq_refl Hj Hx Hry). done.
  - apply IH. intros i j ti tj Hi Hj Hri Hrj.
    specialize (Huniq (S i) (S j) ti tj Hi Hj Hri Hrj). lia.
Qed.

(* ================================================================== *)
(** ** The claims *)


Lemma starts_login_after P cfg s :
  tracked s → starts_login P cfg (call (ensureCmsSession P cfg) s).1 = false.
Proof.
  intros Htr. destruct (ensure_exec P cfg s Htr) as (_ & _ & _ & Htok & Hp).
  unfold starts_login in *. rewrite Htok, Hp.
  destruct (negb (truthy (cmsAuthToken (gsess (glob s))))); cbn; [|done].
  destruct (bool_decide (is_Some (cmsLoginUrl P cfg))); cbn; [|done].
  destruct (negb (credsMissing cfg)); cbn; [|done].
  repeat case_bool_decide; simplify_eq; done.
Qed.

Lemma ensure_result_after P cfg s :
  tracked s →
  ensure_result P cfg (call (ensureCmsSession P cfg) s).1 = ensure_result P cfg s.
Proof.
  intros Htr. destruct (ensure_exec P cfg s Htr) as (_ & _ & _ & Htok & Hp).
  unfold ensure_result, starts_login in *. rewrite Htok, Hp.
  destruct (truthy (cmsAuthToken (gsess (glob s)))); cbn; [done|].
  destruct (bool_decide (is_Some (cmsLoginUrl P cfg))); cbn; [|done].
  destruct (negb (credsMissing cfg)); cbn; [|done].
  case_bool_decide as Hpend; [by rewrite Hpend|].
  by destruct (pendingCmsLogin (gsess (glob s))).
Qed.

(** C2. Login is single-flight. In every state the session manager
    reaches, at most one login attempt is unsettled; two calls of
    [ensureCmsSession] in a row send one login request when the first
    one starts a login and none otherwise, and both callers are handed
    the same thing: the cached token, or the same pending promise. *)
Theorem login_single_flight (P : platform) (cfg : config) (es : list session_event)
    (t : float) :
  let s := session_run P cfg es t in
  let c1 := call (ensureCmsSession P cfg) s in
  let c2 := call (ensureCmsSession P cfg) c1.1 in
  length (in_flight s) ≤ 1 ∧
  length (in_flight c2.1) ≤ 1 ∧
  network c2.1 = network s ++
    (if starts_login P cfg s
     then [loginRequest cfg (default "" (cmsLoginUrl P cfg))] else []) ∧
  c1.2 = ensure_result P cfg s ∧
  c2.2 = c1.2.
Proof.
  cbn zeta. pose proof (tracked_run P cfg es t) as Htr.
  set (s := session_run P cfg es t) in *.
  destruct (ensure_exec P cfg s Htr) as (Htr1 & Hn1 & Hr1 & _).
  destruct (ensure_exec P cfg _ Htr1) as (Htr2 & Hn2 & Hr2 & _).
  split_and!; [by apply tracked_in_flight|by apply tracked_in_flight| |done|].
  - by rewrite Hn2, Hn1, starts_login_after, app_nil_r.
  - by rewrite Hr2, Hr1, ensure_result_after.
Qed.

(** C4. Recency rule: when the history the duplicate check read has an
    entry whose [createdAt] is set and not older than six hours before
    the time the check started, the check answers [false]. *)
Theorem recency_rule_rejects (P : platform) (cfg : config) (w : world) (c : nat)
    (g : globals) (pr payload doc : jsval) :
  let r := run_open w (shouldPersistPositionReport P cfg pr) c g in
  In (Ok payload) (jsons (trace r)) →
  In doc (docsOf payload) →
  truthy (getProp doc "createdAt") = true →
  num_ge (Date_getTime P (getProp doc "createdAt"))
         (now (ghost g) - 6 * 60 * 60 * 1000)%float = true →
  result r = Ok false.
Proof.
  cbn zeta. intros Hin Hdoc Hset Hrecent.
  pose proof (wpo_sound _ w c g _ (should_spec P cfg pr g)) as Hs.
  unfold should_post in Hs.
  destruct (cmsCollectionUrl P cfg); [|by destruct Hs as (_ & _ & _ & Hj); rewrite Hj in Hin].
  destruct (truthy (cmsAuthToken (gsess g)));
    [|by destruct Hs as (_ & _ & _ & Hj); rewrite Hj in Hin].
  destruct Hs as (_ & _ & _ & Hs).
  assert (existsb (isRecentLog P (now (ghost g) - 6 * 60 * 60 * 1000)%float)
            (docsOf payload) = true) as Hex.
  { apply existsb_exists. exists doc. split; [done|].
    unfold isRecentLog. by rewrite Hset. }
  destruct (texts (trace _)) as [|[] []], (jsons (trace _)) as [|[] []];
    try done; cbn in Hin; destruct Hin as [Hin|[]]; simplify_eq.
  rewrite Hs. unfold dedupAllows. by rewrite Hex.
Qed.

Lemma recency_rule_rejects_witness :
  result (run_open (w_history [recent_doc])
            (shouldPersistPositionReport P0 (cfg_of AisLogs) sample_report) 0 g_authed)
  = Ok false.
Proof.
  apply (recency_rule_rejects P0 (cfg_of AisLogs) (w_history [recent_doc]) 0 g_authed
           sample_report (history [recent_doc]) recent_doc).
  - vm_compute. by left.
  - vm_compute. by left.
  - reflexivity.
  - reflexivity.
Defined.

(** C3. Identical-location rule, first program (code defect). The first
    program writes [location: [Longitude, Latitude]] and compares
    [location[0]] with [Latitude] and [location[1]] with [Longitude]: the
    entry it stored for a report ten hours ago holds exactly the pair it
    wrote for that report, the comparison does not recognise it, and the
    same report is allowed again. *)
Theorem identical_location_missed_after_flip :
  getProp (stored_doc (cfg_of AisLogs)) "location"
    = JArr (locationOf (cfg_of AisLogs) sample_report) ∧
  isSameLocation P0 sample_report (stored_doc (cfg_of AisLogs)) = false ∧
  result (run_open (w_history [stored_doc (cfg_of AisLogs)])
            (shouldPersistPositionReport P0 (cfg_of AisLogs) sample_report) 0 g_authed)
    = Ok true.
Proof. vm_compute. done. Qed.




(** C6. Backoff delay: [scheduleReconnect] arms its timer with
    [min(30000, 1000 * 2^n)] milliseconds for [n] attempts; the delay is
    1000 for 0, and 30000 for 5 and for 10 attempts, it never decreases
    with [n] and never exceeds 30000. *)
Theorem backoff_delay (g : globals) (n k : nat) :
  timers (ghost (run_handler scheduleReconnect g)) =
    timers (ghost g) ++
      match reconnectTimer (gconn g) with
      | None => [(nextTimer (ghost g),
                  ReconnectTimeout
                    (Z.min 30000 (1000 * 2 ^ Z.of_nat (reconnectAttempts (gconn g)))))]
      | Some _ => []
      end ∧
  reconnectDelay n = Z.min 30000 (1000 * 2 ^ Z.of_nat n) ∧
  reconnectDelay 0 = 1000%Z ∧
  reconnectDelay 5 = 30000%Z ∧
  reconnectDelay 10 = 30000%Z ∧
  (reconnectDelay n ≤ reconnectDelay (n + k))%Z ∧
  (reconnectDelay n ≤ 30000)%Z.
Proof.
  split_and!; try done.
  - unfold run_handler, scheduleReconnect. cbn.
    destruct (reconnectTimer (gconn g)); cbn; [by rewrite app_nil_r|done].
  - apply reconnectDelay_mono.
  - apply reconnectDelay_cap.
Qed.

(** C7. At most one reconnect timer is ever pending: in every state the
    connection reaches, the host holds at most one; [scheduleReconnect]
    with a timer pending changes nothing and writes nothing, and without
    one it leaves exactly one pending; the attempt counter is reset by
    an open, incremented by the firing of a reconnect timer, and left
    alone by every other event (close, error, other timers). *)
Theorem reconnect_timer_unique (cfg : config) (es : list conn_event) (t : float)
    (e : conn_event) :
  let g := conn_run cfg es t in
  length (pending_reconnects g) ≤ 1 ∧
  match reconnectTimer (gconn g) with
  | Some _ =>
      run_handler scheduleReconnect g = g ∧ logs_of_handler scheduleReconnect g = []
  | None => length (pending_reconnects (run_handler scheduleReconnect g)) = 1
  end ∧
  reconnectAttempts (gconn (conn_step cfg e g)) =
    match e with
    | EvOpen _ => 0
    | _ => if fires_reconnect e g then S (reconnectAttempts (gconn g))
           else reconnectAttempts (gconn g)
    end.
Proof.
  cbn zeta. pose proof (one_timer_run cfg es t) as Hone.
  set (g := conn_run cfg es t) in *. unfold one_timer in Hone.
  split_and!.
  - destruct (reconnectTimer (gconn g)); lia.
  - unfold run_handler, logs_of_handler, scheduleReconnect. cbn.
    destruct (reconnectTimer (gconn g)) eqn:Htimer; cbn; [done|].
    unfold pending_reconnects in *. cbn. rewrite List.filter_app, length_app. cbn. lia.
  - apply attempts_step.
Qed.




(** C9. No run of [persistPositionReport] writes "Skipping duplicate
    check; missing auth token": whatever the environment answers and
    however other tasks interfere at the suspension points, the
    duplicate check it calls starts with a token cached. *)
Theorem duplicate_check_starts_authenticated (P : platform) (cfg : config) (w : world)
    (c : nat) (g : globals) (pr : jsval) :
  existsb is_skip_log
    (logs (trace (run_open w (persistPositionReport P cfg pr) c g))) = false.
Proof.
  by pose proof (wpo_sound _ w c g _ (persist_spec P cfg pr g)) as (_ & Hskip & _).
Qed.


(* ================================================================== *)
(** ** Further properties *)

Lemma writes_only_bind F {A B} (m : prog A) (f : A → prog B) :
  writes_only F m → (∀ a, writes_only F (f a)) → writes_only F (m ≫= f).
Proof.
  unfold mbind, prog_bind. intros Hm Hf.
  prog_cases m; cbn in *; try done; eauto.
  - destruct Hm; eauto.
  - destruct Hm; eauto.
  - destruct Hm; eauto.
Qed.

Lemma writes_only_try F {A} (m : prog A) : writes_only F m → writes_only F (try_ m).
Proof.
  intros Hm. prog_cases m; cbn in *; try done; eauto.
  - destruct Hm; eauto.
  - destruct Hm; eauto.
  - destruct Hm; eauto.
Qed.

Lemma writes_only_await_call F {A} (m : prog A) :
  writes_only F m → writes_only F (await_call m).
Proof.
  intros Hm. unfold await_call. apply writes_only_bind; [by apply writes_only_try|].
  intros o r. by destruct o.
Qed.

Lemma writes_only_settle F {A} (o : outcome A) : writes_only F (settle o).
Proof. by destruct o. Qed.

Create HintDb writes.

Ltac wo_step :=
  lazymatch goal with
  | |- writes_only _ (await_call _) => apply writes_only_await_call
  | |- writes_only _ (try_ _) => apply writes_only_try
  | |- writes_only _ (_ ≫= _) => apply writes_only_bind; [|intros ?]
  | |- writes_only _ (match ?x with _ => _ end) => destruct x
  | |- writes_only _ (settle _) => apply writes_only_settle
  | |- writes_only _ _ => first [ assumption | solve [auto with writes] | (cbn; done) ]
  end.

Ltac wo := repeat wo_step.

Lemma writes_warnHost : writes_only session_write warnMissingCmsHost.
Proof. unfold warnMissingCmsHost. intros g. cbn. by destruct (missingCmsHostWarned _). Qed.

Lemma writes_warnCreds : writes_only session_write warnMissingCmsCreds.
Proof. unfold warnMissingCmsCreds. intros g. cbn. by destruct (missingCmsCredsWarned _). Qed.

#[local] Hint Resolve writes_warnHost writes_warnCreds : writes.

Lemma writes_loginToCms P cfg : writes_only session_write (loginToCms P cfg).
Proof.
  unfold loginToCms, await, modify, log.
  destruct (cmsLoginUrl P cfg); [|wo].
  destruct (credsMissing cfg); [wo|].
  unfold mbind, prog_bind, mret, prog_ret. cbn.
  intros [resp|e]; cbn; [|done].
  destruct (ok resp); cbn; intros [v|e]; cbn; try done.
  destruct (truthy (tokenOf v)); cbn; done.
Qed.

#[local] Hint Resolve writes_loginToCms : writes.

Lemma writes_ensure P cfg : writes_only session_write (ensureCmsSession P cfg).
Proof.
  unfold ensureCmsSession.
  apply writes_only_bind; [by cbn|]. intros g.
  destruct (truthy (cmsAuthToken (gsess g))); [done|].
  destruct (cmsLoginUrl P cfg); [|wo].
  destruct (credsMissing cfg); [wo|].
  apply writes_only_bind.
  - destruct (pendingCmsLogin (gsess g)); [done|]. cbn. split_and!; try done.
    unfold loginTask. wo. 
  - intros _. apply writes_only_bind; [by cbn|]. intros g'.
    destruct (pendingCmsLogin (gsess g')); cbn; [|done]. intros o. by destruct o.
Qed.

#[local] Hint Resolve writes_ensure : writes.

Lemma writes_fetchWith F mk : writes_only F (fetchWith mk).
Proof. unfold fetchWith. intros g o. by destruct o. Qed.

Lemma writes_par P cfg rf :
  writes_only session_write rf →
  writes_only session_write (performAuthorizedRequest P cfg rf).
Proof.
  intros Hrf. unfold performAuthorizedRequest, modify. wo.
Qed.

Lemma writes_should P cfg pr :
  writes_only session_write (shouldPersistPositionReport P cfg pr).
Proof.
  unfold shouldPersistPositionReport, fetchRecentLogs, await, log.
  destruct (cmsCollectionUrl P cfg); [|wo].
  apply writes_only_bind; [by cbn|]. intros g.
  destruct (negb _); [wo|].
  apply writes_only_bind.
  { apply writes_only_try, writes_only_await_call, writes_par, writes_fetchWith. }
  intros [resp|e]; [|wo].
  destruct (negb (ok resp)).
  { cbn. intros o. by destruct o. }
  apply writes_only_bind.
  { cbn. intros o. by destruct o. }
  intros [payload|e]; [|wo].
  cbn. repeat case_match; done.
Qed.

Lemma writes_persist P cfg pr :
  writes_only session_write (persistPositionReport P cfg pr).
Proof.
  unfold persistPositionReport, postAisLog, await, log.
  destruct (cmsCollectionUrl P cfg); [|wo].
  destruct (cmsLoginUrl P cfg); [|wo].
  destruct (credsMissing cfg); [wo|].
  apply writes_only_bind.
  { apply writes_only_try, writes_only_await_call, writes_ensure. }
  intros [v|e]; [|wo].
  apply writes_only_bind; [by cbn|]. intros g.
  destruct (negb _); [wo|].
  apply writes_only_bind.
  { apply writes_only_try, writes_only_await_call, writes_should. }
  intros [b|e]; [|wo].
  destruct (negb b); [wo|].
  apply writes_only_bind.
  { apply writes_only_try, writes_only_bind.
    - apply writes_only_await_call, writes_par, writes_fetchWith.
    - intros resp. destruct (negb (ok resp)); [|done].
      cbn. intros o. by destruct o. }
  intros [b'|e]; wo.
Qed.

(** The frame rule: an invariant that the program's assignments keep
    holds after its synchronous prefix, and, when the environment keeps
    it too, at the end of its run. *)
Lemma writes_only_preserves F (I : globals → Prop) {A} (p : prog A) :
  (∀ f g, F f → I g → I (f g)) → writes_only F p → preserves I p.
Proof.
  intros HF. unfold preserves.
  prog_cases p; cbn; intros Hp g Hg; eauto.
  - destruct Hp. eauto.
  - destruct Hp as [Hch Hk].
    eapply wp_mono; [|by apply IHc]. cbn. intros g1 Hg1 p. by apply IHk.
  - destruct Hp. eauto.
Qed.

Lemma writes_only_run F (I : globals → Prop) {A} (p : prog A) : ∀ w c g,
  (∀ f g, F f → I g → I (f g)) →
  (∀ n g, I g → I (interfere w n g)) →
  writes_only F p → I g → I (final (run_open w p c g)).
Proof.
  prog_cases p; cbn; intros w c g HF Hw Hp Hg; eauto.
  - destruct Hp. eauto.
  - destruct Hp as [Hch Hk].
    pose proof (wp_prefix ch (S c) g I (writes_only_preserves F I ch HF Hch g Hg)) as H1.
    destruct (prefix ch (S c) g) as [[c1 g1] t1]. cbn in *. eauto.
  - destruct Hp. eauto.
Qed.

Lemma writes_handleMessage P cfg data :
  writes_only (λ f, session_write f ∨ f = on_conn (set_minutesWaited 0))
    (handleMessage P cfg data).
Proof.
  unfold handleMessage, modify, log.
  apply writes_only_bind; [|intros [?|?]; cbn; done].
  apply writes_only_try.
  destruct (JSON_parse P data) as [m|]; [|done].
  cbn. split; [by right|].
  destruct (truthy (positionReportOf m)); [|done].
  apply writes_only_await_call.
  assert (Hmono : ∀ A (p : prog A), writes_only session_write p →
    writes_only (λ f, session_write f ∨ f = on_conn (set_minutesWaited 0)) p).
  { intros A p. prog_cases p; cbn; eauto.
    - intros [? ?]; eauto.
    - intros [? ?]; eauto.
    - intros [? ?]; eauto. }
  apply Hmono, writes_persist.
Qed.

(** X7. Every assignment on the persistence path, in
    [persistPositionReport], in everything it calls and in the login
    task it may start, is to a session variable: none touches the
    connection variables or the host. *)
Theorem persistence_writes_session_only P cfg pr :
  writes_only session_write (persistPositionReport P cfg pr).
Proof. apply writes_persist. Qed.

(** X8. A persistence run does not disturb the connection: whatever
    property of the connection variables and the host the rest of the
    program maintains while the run is suspended still holds when the
    run ends. *)
Theorem persistence_keeps_connection P cfg pr w c g (I : conn → host → Prop) :
  (∀ n g', I (gconn g') (ghost g') →
     I (gconn (interfere w n g')) (ghost (interfere w n g'))) →
  I (gconn g) (ghost g) →
  let r := run_open w (persistPositionReport P cfg pr) c g in
  I (gconn (final r)) (ghost (final r)).
Proof.
  intros Hw Hg. cbn.
  apply (writes_only_run session_write (λ g, I (gconn g) (ghost g))); try done.
  - intros f g0 Hf. destruct (Hf g0) as [-> ->]. done.
  - apply writes_persist.
Qed.

(** X9. Every inbound frame that parses resets the inactivity counter:
    when the synchronous part of [handleMessage] ends (before any other
    handler can run), [minutesWaited] is 0. *)
Theorem message_resets_inactivity P cfg data m c g :
  JSON_parse P data = Some m →
  minutesWaited (gconn (prefix (handleMessage P cfg data) c g).1.2) = 0%Z.
Proof.
  intros Hm. apply (wp_prefix _ c g (λ g', minutesWaited (gconn g') = 0%Z)).
  unfold handleMessage, modify, log. rewrite Hm.
  destruct (truthy (positionReportOf m)); cbn; [|done].
  apply (writes_only_preserves session_write (λ g', minutesWaited (gconn g') = 0%Z));
    [| |done].
  - intros f g0 Hf. destruct (Hf g0) as [-> _]. done.
  - apply (writes_only_bind session_write).
    + apply writes_only_try, writes_only_await_call, writes_persist.
    + intros [?|?]; done.
Qed.

Lemma message_resets_inactivity_witness :
  minutesWaited (gconn (prefix (handleMessage P0 (cfg_of AisLogs) foo_bar_text) 0 g_waited).1.2)
  = 0%Z.
Proof. by apply (message_resets_inactivity P0 (cfg_of AisLogs) foo_bar_text (JObj [("foo", JStr "bar")])). Defined.

Lemma persistence_keeps_connection_witness :
  minutesWaited (gconn (final (run_open (world_of (answers (Ok http_ok) (Ok "") (Ok (history []))))
     (persistPositionReport P0 (cfg_of AisLogs) sample_report) 0 g_waited))) = 60%Z.
Proof.
  apply (persistence_keeps_connection P0 (cfg_of AisLogs) sample_report _ 0 g_waited
           (λ c _, minutesWaited c = 60%Z)); [intros n g' H; exact H | reflexivity].
Defined.


(** X2. One inbound message costs at most four awaited HTTP requests
    (two history queries, two creates), and at most two of them post a
    record. *)
Theorem message_request_budget P cfg w c g data :
  let r := run_open w (handleMessage P cfg data) c g in
  length (fetches (trace r)) ≤ 4 ∧ length (creates (trace r)) ≤ 2.
Proof.
  apply (wpo_sound _ w c g
           (λ _ t _, length (fetches t) ≤ 4 ∧ length (creates t) ≤ 2)).
  unfold handleMessage, modify, log.
  destruct (JSON_parse P data) as [m|]; [|cbn; trace_leaf].
  destruct (truthy (positionReportOf m)); cbn; [|trace_leaf].
  eapply wpo_bind_try_call; [apply persist_spec|].
  intros g1 t1 r1 (_ & _ & Hc & Hf & _) o g2.
  destruct r1; cbn; trace_leaf.
Qed.

(** X3. A report is never posted when the history the duplicate check
    read holds an entry the location comparison matches: then
    [persistPositionReport] sends no create request at all. *)
Theorem known_location_is_not_posted P cfg w c g pr payload :
  let r := run_open w (persistPositionReport P cfg pr) c g in
  In (Ok payload) (jsons (trace r)) →
  existsb (isSameLocation P pr) (docsOf payload) = true →
  creates (trace r) = [].
Proof.
  cbn zeta. intros Hin Hsame.
  destruct (wpo_sound _ w c g _ (persist_spec P cfg pr g)) as (_ & _ & _ & _ & Hc).
  destruct (creates (trace _)) as [|x l] eqn:Hcr; [done|].
  exfalso. specialize (Hc ltac:(done)).
  destruct (jsons (trace _)) as [|[p|e] [|]]; try done.
  - destruct Hin as [[= ->]|[]]. destruct Hc as [t0 Hc].
    unfold dedupAllows in Hc. rewrite Hsame in Hc. by rewrite andb_false_r in Hc.
  - by destruct Hin as [|[]].
Qed.

Lemma known_location_is_not_posted_witness :
  creates (trace (run_open (w_history [stored_doc (cfg_of CollectionsAisLogs)])
            (persistPositionReport P0 (cfg_of CollectionsAisLogs) sample_report) 0 g_authed))
  = [].
Proof.
  apply (known_location_is_not_posted P0 (cfg_of CollectionsAisLogs) _ 0 g_authed sample_report
           (history [stored_doc (cfg_of CollectionsAisLogs)]));
    [vm_compute; auto | vm_compute; reflexivity].
Defined.

(** X4. In the second program ([/api/collections/ais-logs]) the
    identical-location rule works on the records the program itself
    writes: when the history holds an entry whose [location] is the pair
    the program writes for this report, and the report's coordinates are
    numbers, the duplicate check answers [false]. *)
Theorem identical_location_rule_unflipped P cfg w c g pr payload doc :
  let r := run_open w (shouldPersistPositionReport P cfg pr) c g in
  which cfg = CollectionsAisLogs →
  In (Ok payload) (jsons (trace r)) →
  In doc (docsOf payload) →
  getProp doc "location" = JArr (locationOf cfg pr) →
  strict_eq_num (Number P (getProp pr "Latitude")) (Number P (getProp pr "Latitude")) = true →
  strict_eq_num (Number P (getProp pr "Longitude")) (Number P (getProp pr "Longitude")) = true →
  result r = Ok false.
Proof.
  cbn zeta. intros Hv Hin Hdoc Hloc Hlat Hlon.
  assert (Hsame : existsb (isSameLocation P pr) (docsOf payload) = true).
  { apply existsb_exists. exists doc. split; [done|].
    unfold isSameLocation. rewrite Hloc. unfold locationOf. rewrite Hv.
    cbn -[getProp Number strict_eq_num].
    by rewrite Hlat, Hlon. }
  pose proof (wpo_sound _ w c g _ (should_spec P cfg pr g)) as Hs.
  unfold should_post in Hs.
  destruct (cmsCollectionUrl P cfg); [|by destruct Hs].
  destruct (truthy (cmsAuthToken (gsess g))).
  2: { destruct Hs as (_ & _ & _ & Hj). by rewrite Hj in Hin. }
  destruct Hs as (_ & _ & _ & Hs).
  destruct (texts (trace _)) as [|[] []], (jsons (trace _)) as [|[p|] []];
    try done; try (by destruct Hin as [|[]]).
  destruct Hin as [[= ->]|[]]. rewrite Hs. unfold dedupAllows. rewrite Hsame.
  by rewrite andb_false_r.
Qed.

Lemma identical_location_rule_unflipped_witness :
  result (run_open (w_history [stored_doc (cfg_of CollectionsAisLogs)])
            (shouldPersistPositionReport P0 (cfg_of CollectionsAisLogs) sample_report) 0 g_authed)
  = Ok false.
Proof.
  apply (identical_location_rule_unflipped P0 (cfg_of CollectionsAisLogs) _ 0 g_authed
           sample_report (history [stored_doc (cfg_of CollectionsAisLogs)])
           (stored_doc (cfg_of CollectionsAisLogs)));
    [reflexivity | vm_compute; auto | vm_compute; auto | reflexivity
    | vm_compute; reflexivity | vm_compute; reflexivity].
Defined.

Lemma cmsUrl_none P cfg path path' : cmsUrl P cfg path = None → cmsUrl P cfg path' = None.
Proof. unfold cmsUrl. destruct (CMS_HOST_URL cfg); [|done]. by destruct (String.eqb _ _). Qed.

(** X5. Without the store's URL, or without the credentials,
    [persistPositionReport] degrades to a no-op: it completes normally,
    awaits nothing and starts nothing, writes at most the one
    configuration warning, and leaves the connection, the host, the
    cached token and the pending login as they were. *)
Theorem unconfigured_persistence_sends_nothing P cfg w c g pr :
  let r := run_open w (persistPositionReport P cfg pr) c g in
  cmsCollectionUrl P cfg = None ∨ credsMissing cfg = true →
  result r = Ok tt ∧
  (trace r = [] ∨ ∃ l, trace r = [OLog l] ∧ warn_log l = true) ∧
  gconn (final r) = gconn g ∧ ghost (final r) = ghost g ∧
  cmsAuthToken (gsess (final r)) = cmsAuthToken (gsess g) ∧
  pendingCmsLogin (gsess (final r)) = pendingCmsLogin (gsess g).
Proof.
  cbn zeta. intros H. unfold persistPositionReport, warnMissingCmsHost, warnMissingCmsCreds.
  destruct (cmsCollectionUrl P cfg) as [url|] eqn:Hurl.
  - destruct H as [|Hc]; [done|]. rewrite Hc.
    destruct (cmsLoginUrl P cfg); cbn.
    + destruct (missingCmsCredsWarned (gsess g)); cbn; split_and!; eauto.
    + destruct (missingCmsHostWarned (gsess g)); cbn; split_and!; eauto.
  - cbn. destruct (missingCmsHostWarned (gsess g)); cbn; split_and!; eauto.
Qed.

Lemma unconfigured_persistence_sends_nothing_witness :
  trace (run_open (w_history [])
           (persistPositionReport P0
              {| which := AisLogs; MMSI := Some "308015000"; CMS_HOST_URL := None;
                 CMS_EMAIL := None; CMS_PASSWORD := None; AIS_STREAM_KEY := Some "key" |}
              sample_report) 0 (initial_globals noon))
  = [OLog (Say LWarn "Missing CMS_HOST_URL; skipping Payload persistence")].
Proof.
  destruct (unconfigured_persistence_sends_nothing P0
    {| which := AisLogs; MMSI := Some "308015000"; CMS_HOST_URL := None;
       CMS_EMAIL := None; CMS_PASSWORD := None; AIS_STREAM_KEY := Some "key" |}
    (w_history []) 0 (initial_globals noon) sample_report) as (_ & _ & _).
  - left. reflexivity.
  - reflexivity.
Defined.

(** X6. The configuration warning is written once: with the store's URL
    or the credentials missing, a second report is handled without any
    output and without any change of the variables. *)
Theorem configuration_warning_written_once P cfg w w' c c' g pr pr' :
  let r := run_open w (persistPositionReport P cfg pr) c g in
  let r' := run_open w' (persistPositionReport P cfg pr') c' (final r) in
  cmsCollectionUrl P cfg = None ∨ credsMissing cfg = true →
  trace r' = [] ∧ final r' = final r.
Proof.
  cbn zeta. intros H. unfold persistPositionReport, warnMissingCmsHost, warnMissingCmsCreds.
  destruct (cmsCollectionUrl P cfg) as [url|] eqn:Hurl.
  - destruct H as [|Hc]; [done|]. rewrite Hc.
    destruct (cmsLoginUrl P cfg); cbn.
    + destruct (missingCmsCredsWarned (gsess g)) eqn:Hw; cbn; rewrite ?Hw; cbn; done.
    + destruct (missingCmsHostWarned (gsess g)) eqn:Hw; cbn; rewrite ?Hw; cbn; done.
  - cbn. destruct (missingCmsHostWarned (gsess g)) eqn:Hw; cbn; rewrite ?Hw; cbn; done.
Qed.

Lemma configuration_warning_written_once_witness :
  trace (run_open (w_history [])
           (persistPositionReport P0
              {| which := AisLogs; MMSI := Some "308015000"; CMS_HOST_URL := Some "https://cms.example";
                 CMS_EMAIL := None; CMS_PASSWORD := Some "secret"; AIS_STREAM_KEY := Some "key" |}
              sample_report) 7
           (final (run_open (w_history [])
              (persistPositionReport P0
                {| which := AisLogs; MMSI := Some "308015000"; CMS_HOST_URL := Some "https://cms.example";
                 CMS_EMAIL := None; CMS_PASSWORD := Some "secret"; AIS_STREAM_KEY := Some "key" |}
                sample_report) 0 (initial_globals noon))))
  = [].
Proof.
  refine (proj1 (configuration_warning_written_once P0
    {| which := AisLogs; MMSI := Some "308015000"; CMS_HOST_URL := Some "https://cms.example";
       CMS_EMAIL := None; CMS_PASSWORD := Some "secret"; AIS_STREAM_KEY := Some "key" |}
    (w_history []) (w_history []) 0 7 (initial_globals noon) sample_report sample_report _)).
  right. reflexivity.
Defined.

Ltac roll Hlen Hjobs :=
  repeat (rewrite ?list_lookup_insert_eq, ?length_insert, ?list_insert_insert_eq
            by (rewrite ?length_insert; apply Hlen);
          cbn; rewrite ?Hjobs; cbn;
          rewrite ?flush_nil by (cbn; by rewrite ?Hjobs); cbn;
          rewrite ?flush_clear by (cbn; by rewrite ?Hjobs); cbn).

(** X11. A login from start to end. When [ensureCmsSession] starts a
    login and the host then answers it (the request, the reading of the
    response, the tick of the [await]), the promise is settled with the
    token of a 2xx response that carries one, and rejected otherwise; the
    token is cached in the first case and left alone in the second; the
    pending-login slot is empty again; exactly one request was sent. *)
Theorem login_round_trip P cfg s url ans :
  tracked s → starts_login P cfg s = true → cmsLoginUrl P cfg = Some url →
  let p := length (pool s) in
  let s' := complete p ans (complete p ans (complete p ans
              (call (ensureCmsSession P cfg) s).1)) in
  pool s' !! p = Some (Settled (login_outcome cfg url ans)) ∧
  cmsAuthToken (gsess (glob s')) =
    match login_outcome cfg url ans with
    | Ok token => token
    | Err _ => cmsAuthToken (gsess (glob s))
    end ∧
  pendingCmsLogin (gsess (glob s')) = None ∧
  network s' = network s ++ [loginRequest cfg url].
Proof.
  intros Htr Hstart Hurl. cbn zeta.
  pose proof Htr as (Hjobs & _ & _).
  unfold starts_login in Hstart.
  repeat (apply andb_prop in Hstart as [Hstart ?]).
  apply negb_true_iff in Hstart.
  match goal with H : negb (credsMissing _) = true |- _ => apply negb_true_iff in H; rename H into Hcreds end.
  match goal with H : bool_decide (pendingCmsLogin _ = None) = true |- _ => apply bool_decide_eq_true in H; rename H into Hpend end.
  unfold login_outcome, call, complete.
  unfold ensureCmsSession, loginTask, loginToCms, clearPendingLogin, await_call,
    await, modify, log, get, loginRequest.
  unfold mbind, prog_bind, mret, prog_ret. cbn.
  rewrite Hstart, Hurl, Hcreds, Hpend. cbn.
  unfold register. cbn.
  rewrite !lookup_app_r by done. rewrite !Nat.sub_diag. cbn.
  rewrite flush_nil by done. cbn.
  assert (Hlen : ∀ x : task, length (pool s) < length (pool s ++ [x]))
    by (intros; rewrite length_app; cbn; lia).
  roll Hlen Hjobs.
  destruct (ans (AFetch _)) as [resp|e]; cbn.
  2: { roll Hlen Hjobs. done. }
  destruct (ok resp); cbn; roll Hlen Hjobs.
  - destruct (ans (AJson resp)) as [payload|e]; cbn; roll Hlen Hjobs.
    + destruct (truthy (tokenOf payload)) eqn:Ht; cbn; roll Hlen Hjobs; done.
    + done.
  - destruct (ans (AText resp)) as [body|e]; cbn; roll Hlen Hjobs; done.
Qed.

Lemma login_round_trip_witness :
  cmsAuthToken (gsess (glob
    (complete 0 (answers (Ok http_ok) (Ok "") (Ok (JObj [("token", JStr "token-1")])))
      (complete 0 (answers (Ok http_ok) (Ok "") (Ok (JObj [("token", JStr "token-1")])))
        (complete 0 (answers (Ok http_ok) (Ok "") (Ok (JObj [("token", JStr "token-1")])))
          (call (ensureCmsSession P0 (cfg_of AisLogs))
             (initial_sched (initial_globals noon))).1)))))
  = JStr "token-1".
Proof.
  assert (tracked (initial_sched (initial_globals noon))) as Htr by (split_and!; done).
  destruct (login_round_trip P0 (cfg_of AisLogs) (initial_sched (initial_globals noon))
              "https://cms.example/api/users/login"
              (answers (Ok http_ok) (Ok "") (Ok (JObj [("token", JStr "token-1")])))
              Htr eq_refl eq_refl) as (_ & Htok & _).
  exact Htok.
Defined.

Lemma isSocketOpen_step cfg e g :
  isSocketOpen (gconn (conn_step cfg e g)) =
    match e with
    | EvOpen _ => true
    | EvClose _ _ => false
    | _ => isSocketOpen (gconn g)
    end.
Proof.
  destruct e; unfold conn_step, run_handler.
  - apply (wp_prefix _ 0 _ (λ g', isSocketOpen (gconn g') = true)). crunch.
  - apply (wp_prefix _ 0 _ (λ g', isSocketOpen (gconn g') = false)). crunch.
  - apply (wp_prefix _ 0 _ (λ g', isSocketOpen (gconn g') = isSocketOpen (gconn g))). crunch.
  - apply (wp_prefix _ 0 _ (λ g', isSocketOpen (gconn g') = isSocketOpen (gconn g))). crunch.
Qed.

(** X12. [GET /health] answers 200 with [connected] exactly when the
    last open or close event of the socket was an open, and 503 with
    [disconnected] otherwise; errors and timers do not change it. *)
Theorem health_follows_socket cfg es t :
  health (conn_run cfg es t) =
    if last_signal es
    then (200%Z, JObj [("websocket", JStr "connected")])
    else (503%Z, JObj [("websocket", JStr "disconnected")]).
Proof.
  assert (H : ∀ b g, isSocketOpen (gconn g) = b →
    isSocketOpen (gconn (fold_left (λ g e, conn_step cfg e g) es g)) =
    fold_left (λ b e, match e with
                      | EvOpen _ => true
                      | EvClose _ _ => false
                      | _ => b
                      end) es b).
  { induction es as [|e es IH]; intros b g Hg; cbn; [done|].
    apply IH. rewrite isSocketOpen_step. by destruct e. }
  specialize (H false (run_handler connect (initial_globals t)) eq_refl).
  fold (conn_run cfg es t) in H. fold (last_signal es) in H.
  unfold health. rewrite H. by destruct (last_signal es).
Qed.

Lemma socket_step cfg e g :
  is_Some (socket (gconn g)) → is_Some (socket (gconn (conn_step cfg e g))).
Proof.
  intros Hs. destruct e; unfold conn_step, run_handler.
  - apply (wp_prefix _ 0 _ (λ g', is_Some (socket (gconn g')))). crunch.
  - apply (wp_prefix _ 0 _ (λ g', is_Some (socket (gconn g')))). crunch.
  - apply (wp_prefix _ 0 _ (λ g', is_Some (socket (gconn g')))). crunch.
  - apply (wp_prefix _ 0 _ (λ g', is_Some (socket (gconn g')))). crunch.
Qed.

Lemma sent_step cfg e g :
  is_Some (socket (gconn g)) →
  sent (ghost (conn_step cfg e g)) =
    sent (ghost g) ++
      (if env_set (AIS_STREAM_KEY cfg) && is_ready_open e
       then [subscriptionMessage cfg] else []).
Proof.
  intros [n Hs]. destruct e; unfold conn_step, run_handler.
  - apply (wp_prefix _ 0 _ (λ g', sent (ghost g') = sent (ghost g) ++ _)).
    unfold_handlers. unfold socketIsOpen. cbn.
    destruct (which cfg), (env_set (AIS_STREAM_KEY cfg)), rs; cbn; rewrite ?Hs; cbn;
      rewrite ?app_nil_r; try done.
    all: destruct (inactivityTimer (gconn g)); cbn; reflexivity.
  - apply (wp_prefix _ 0 _ (λ g', sent (ghost g') = sent (ghost g) ++ _)).
    rewrite andb_false_r, app_nil_r. crunch.
  - apply (wp_prefix _ 0 _ (λ g', sent (ghost g') = sent (ghost g) ++ _)).
    rewrite andb_false_r, app_nil_r. crunch.
  - apply (wp_prefix _ 0 _ (λ g', sent (ghost g') = sent (ghost g) ++ _)).
    rewrite andb_false_r, app_nil_r. crunch.
Qed.

(** X13. The frames the program sends are exactly one subscription
    per open event delivered while the socket is [OPEN], and none at all
    without an API key; no other event sends anything. *)
Theorem subscription_once_per_open cfg es t :
  sent (ghost (conn_run cfg es t)) =
    if env_set (AIS_STREAM_KEY cfg)
    then repeat (subscriptionMessage cfg) (length (List.filter is_ready_open es))
    else [].
Proof.
  assert (H : ∀ g l, is_Some (socket (gconn g)) →
    sent (ghost g) = (if env_set (AIS_STREAM_KEY cfg)
                      then repeat (subscriptionMessage cfg) (length (List.filter is_ready_open l))
                      else []) →
    sent (ghost (fold_left (λ g e, conn_step cfg e g) es g)) =
      if env_set (AIS_STREAM_KEY cfg)
      then repeat (subscriptionMessage cfg) (length (List.filter is_ready_open (l ++ es)))
      else []).
  { induction es as [|e es IH]; intros g l Hs Hg; cbn; [by rewrite app_nil_r|].
    replace (l ++ e :: es) with ((l ++ [e]) ++ es) by (by rewrite <- app_assoc).
    apply IH; [by apply socket_step|].
    rewrite sent_step by done. rewrite Hg, List.filter_app, length_app. cbn.
    destruct (env_set (AIS_STREAM_KEY cfg)); cbn; [|done].
    destruct (is_ready_open e); cbn.
    - by rewrite repeat_app.
    - by rewrite Nat.add_0_r, app_nil_r. }
  apply (H _ []); [by eexists|]. cbn. by destruct (env_set _).
Qed.

Lemma elem_of_drop_timer t l e : e ∈ drop_timer t l ↔ e.1 ≠ t ∧ e ∈ l.
Proof. unfold drop_timer. by rewrite list_elem_of_filter. Qed.

Lemma NoDup_drop_timer t (l : list (timer_id * timer_kind)) : NoDup l.*1 → NoDup (drop_timer t l).*1.
Proof.
  unfold drop_timer. induction l as [|[i k] l IH]; [done|].
  rewrite fmap_cons, NoDup_cons. intros [Hi Hl]. rewrite filter_cons.
  case_decide; [|by apply IH]. rewrite fmap_cons. apply NoDup_cons. split; [|by apply IH].
  intros Hin. apply Hi. apply list_elem_of_fmap in Hin as (e & -> & He).
  apply list_elem_of_filter in He as [_ He]. apply list_elem_of_fmap. eauto.
Qed.

Lemma NoDup_new_timer n (k : timer_kind) (l : list (timer_id * timer_kind)) :
  NoDup l.*1 → (∀ e, e ∈ l → e.1 < n) → NoDup (l ++ [(n, k)]).*1.
Proof.
  intros Hl Hlt. rewrite fmap_app. cbn. apply NoDup_app. split_and!; [done| |].
  - intros x Hx Hx'. apply list_elem_of_singleton in Hx'. cbn in Hx'. subst x.
    apply list_elem_of_fmap in Hx as (e & Heq & He). specialize (Hlt e He). cbn in *. subst n. by apply Nat.lt_irrefl in Hlt.
  - apply NoDup_singleton.
Qed.

Ltac wf_elem :=
  repeat match goal with
  | H : _ ∈ _ ++ _ |- _ => apply elem_of_app in H as [H|H]
  | H : _ ∈ [_] |- _ => apply list_elem_of_singleton in H
  | H : _ ∈ drop_timer _ _ |- _ => apply elem_of_drop_timer in H as [? H]
  end.

(** A new timer, whose handle may be stored in the variable of its
    kind. *)
Lemma wf_add (k : timer_kind) (g g' : globals) :
  timers_wf g →
  timers (ghost g') = timers (ghost g) ++ [(nextTimer (ghost g), k)] →
  nextTimer (ghost g') = S (nextTimer (ghost g)) →
  (reconnectTimer (gconn g') = reconnectTimer (gconn g) ∨
   reconnectTimer (gconn g') = Some (nextTimer (ghost g)) ∧ is_reconnect (0, k) = true) →
  (if is_inactivity (0, k)
   then inactivity_timers g = [] ∧ inactivityTimer (gconn g') = Some (nextTimer (ghost g))
   else inactivityTimer (gconn g') = inactivityTimer (gconn g)) →
  (pingTimer (gconn g') = pingTimer (gconn g) ∨
   pingTimer (gconn g') = Some (nextTimer (ghost g)) ∧ k = PingInterval) →
  timers_wf g'.
Proof.
  intros (Hnd & Hlt & Hrec & Hin & Hpg & Hall) Ht Hn Hr Hi Hp.
  unfold timers_wf. rewrite Ht, Hn. cbn zeta. split_and!.
  - by apply NoDup_new_timer.
  - intros e He. wf_elem; [specialize (Hlt e He); lia|subst e; cbn; lia].
  - intros id Hid. destruct Hr as [Hr|[Hr Hk]].
    + rewrite Hr in Hid. destruct (Hrec id Hid) as [d Hd]. exists d.
      apply elem_of_app. by left.
    + rewrite Hr in Hid. injection Hid as <-. destruct k; try done.
      eexists. apply elem_of_app. right. by apply list_elem_of_singleton.
  - intros id Hid. destruct (is_inactivity (0, k)) eqn:Hk.
    + destruct Hi as [Hnone Hi]. rewrite Hi in Hid. injection Hid as <-.
      split; [lia|]. intros k' Hk'. wf_elem.
      * specialize (Hlt _ Hk'). cbn in Hlt. lia.
      * injection Hk' as ->. exact Hk.
    + rewrite Hi in Hid. destruct (Hin id Hid) as [Hlt' Hk']. split; [lia|].
      intros k' Hk''. wf_elem; [by apply Hk'|]. injection Hk'' as -> ->. lia.
  - intros id Hid. destruct Hp as [Hp|[Hp ->]].
    + rewrite Hp in Hid. destruct (Hpg id Hid) as [Hlt' Hk']. split; [lia|].
      intros k' Hk''. wf_elem; [by apply Hk'|]. injection Hk'' as -> ->. lia.
    + rewrite Hp in Hid. injection Hid as <-. split; [lia|].
      intros k' Hk'. wf_elem; [|by injection Hk' as ->].
      specialize (Hlt _ Hk'). cbn in Hlt. lia.
  - intros e He Hie. destruct (is_inactivity (0, k)) eqn:Hk.
    + destruct Hi as [Hnone Hi]. rewrite Hi. wf_elem; [|by subst e].
      assert (In e (inactivity_timers g)) as Hf.
      { apply List.filter_In. split; [by apply list_elem_of_In|done]. }
      by rewrite Hnone in Hf.
    + rewrite Hi. wf_elem; [by apply Hall|]. subst e.
      unfold is_inactivity in *. cbn in *. congruence.
Qed.

(** A timer leaves the table: a handle the program keeps is either
    untouched, or reset. *)
Lemma wf_drop (t : timer_id) (g g' : globals) :
  timers_wf g →
  timers (ghost g') = drop_timer t (timers (ghost g)) →
  nextTimer (ghost g') = nextTimer (ghost g) →
  (reconnectTimer (gconn g') = None ∨
   reconnectTimer (gconn g') = reconnectTimer (gconn g) ∧
   reconnectTimer (gconn g) ≠ Some t) →
  (inactivityTimer (gconn g') = inactivityTimer (gconn g) ∨
   inactivityTimer (gconn g') = None ∧ inactivityTimer (gconn g) = Some t) →
  (pingTimer (gconn g') = pingTimer (gconn g) ∨ pingTimer (gconn g') = None) →
  timers_wf g'.
Proof.
  intros (Hnd & Hlt & Hrec & Hin & Hpg & Hall) Ht Hn Hr Hi Hp.
  unfold timers_wf. rewrite Ht, Hn. cbn zeta. split_and!.
  - by apply NoDup_drop_timer.
  - intros e He. wf_elem. auto.
  - intros id Hid. destruct Hr as [Hr|[Hr Hne]]; [congruence|].
    rewrite Hr in Hid. destruct (Hrec id Hid) as [d Hd]. exists d.
    apply elem_of_drop_timer. split; [|done]. cbn. congruence.
  - intros id Hid. destruct Hi as [Hi|[Hi _]]; [|congruence].
    rewrite Hi in Hid. destruct (Hin id Hid) as [? Hk]. split; [done|].
    intros k Hk'. wf_elem. auto.
  - intros id Hid. destruct Hp as [Hp|Hp]; [|congruence].
    rewrite Hp in Hid. destruct (Hpg id Hid) as [? Hk]. split; [done|].
    intros k Hk'. wf_elem. auto.
  - intros e He Hie. wf_elem. specialize (Hall e He Hie).
    destruct Hi as [Hi|[Hi Hi']]; congruence.
Qed.

(** Clearing the handle of an interval cannot remove a reconnect timer. *)
Lemma wf_reconnect_not_inactivity g t :
  timers_wf g → inactivityTimer (gconn g) = Some t → reconnectTimer (gconn g) ≠ Some t.
Proof.
  intros (_ & _ & Hrec & Hin & _) Ht Hr. destruct (Hrec t Hr) as [d Hd].
  destruct (Hin t Ht) as [_ Hk]. by specialize (Hk _ Hd).
Qed.

Lemma wf_reconnect_not_ping g t :
  timers_wf g → pingTimer (gconn g) = Some t → reconnectTimer (gconn g) ≠ Some t.
Proof.
  intros (_ & _ & Hrec & _ & Hpg & _) Ht Hr. destruct (Hrec t Hr) as [d Hd].
  destruct (Hpg t Ht) as [_ Hk]. by specialize (Hk _ Hd).
Qed.

Lemma wf_drop_no_inactivity g g' t :
  timers_wf g → inactivityTimer (gconn g) = Some t →
  timers (ghost g') = drop_timer t (timers (ghost g)) → inactivity_timers g' = [].
Proof.
  intros (_ & _ & _ & _ & _ & Hall) Ht Hl. unfold inactivity_timers. rewrite Hl.
  destruct (List.filter _ _) as [|e l] eqn:Hf; [done|].
  assert (In e (List.filter is_inactivity (drop_timer t (timers (ghost g))))) as He
    by (rewrite Hf; by left).
  apply List.filter_In in He as [He Hie]. apply list_elem_of_In in He. wf_elem.
  specialize (Hall e He Hie). congruence.
Qed.

Lemma wf_none_no_inactivity g :
  timers_wf g → inactivityTimer (gconn g) = None → inactivity_timers g = [].
Proof.
  intros (_ & _ & _ & _ & _ & Hall) Ht. unfold inactivity_timers.
  destruct (List.filter _ _) as [|e l] eqn:Hf; [done|].
  assert (In e (List.filter is_inactivity (timers (ghost g)))) as He
    by (rewrite Hf; by left).
  apply List.filter_In in He as [He Hie]. apply list_elem_of_In in He.
  specialize (Hall e He Hie). congruence.
Qed.

Ltac wf_start := intros g Hg; unfold_handlers; cbn.

Lemma wf_conn (f : conn → conn) :
  (∀ c, reconnectTimer (f c) = reconnectTimer c) →
  (∀ c, inactivityTimer (f c) = inactivityTimer c) →
  (∀ c, pingTimer (f c) = pingTimer c) →
  preserves timers_wf (modify (on_conn f)).
Proof.
  intros H1 H2 H3 g Hg. unfold timers_wf in *. cbn in *. rewrite H1, H2, H3. exact Hg.
Qed.

Lemma wf_host (f : host → host) :
  (∀ h, timers (f h) = timers h) → (∀ h, nextTimer (f h) = nextTimer h) →
  preserves timers_wf (modify (on_host f)).
Proof. intros H1 H2 g Hg. unfold timers_wf in *. cbn in *. rewrite H1, H2. exact Hg. Qed.

Lemma wf_clearInactivityTimer : preserves timers_wf clearInactivityTimer.
Proof.
  wf_start. destruct (inactivityTimer (gconn g)) as [t|] eqn:Ht; cbn; [|done].
  eapply (wf_drop t g); cbn; eauto; try done.
  right. split; [done|]. by apply wf_reconnect_not_inactivity.
Qed.

Lemma wf_startInactivityTimer cfg : preserves timers_wf (startInactivityTimer cfg).
Proof.
  wf_start. destruct (inactivityTimer (gconn g)) as [t|] eqn:Ht; cbn.
  - set (g1 := on_host (λ h, set_timers (drop_timer t (timers h)) h) g).
    assert (timers_wf g1) as H1.
    { eapply (wf_drop t g); cbn; eauto; try done.
      right. split; [done|]. by apply wf_reconnect_not_inactivity. }
    eapply (wf_add _ g1); cbn; eauto; try done.
    split; [|done]. by eapply (wf_drop_no_inactivity g g1 t).
  - eapply (wf_add _ g); cbn; eauto; try done. split; [|done]. by apply wf_none_no_inactivity.
Qed.

Lemma wf_scheduleReconnect : preserves timers_wf scheduleReconnect.
Proof.
  wf_start. destruct (reconnectTimer (gconn g)) as [t|] eqn:Ht; cbn; [done|].
  eapply (wf_add _ g); cbn; eauto; try done.
Qed.

Lemma wf_connect : preserves timers_wf connect.
Proof. wf_start. exact Hg. Qed.

Lemma wf_sendSubscription cfg : preserves timers_wf (sendSubscription cfg).
Proof.
  unfold sendSubscription.
  destruct (negb (env_set (AIS_STREAM_KEY cfg))); [apply preserves_log|].
  apply preserves_get_any. intros g0.
  destruct (negb (socketIsOpen g0)); [apply preserves_log|].
  apply preserves_bind; [by apply wf_host|]. intros _. apply wf_startInactivityTimer.
Qed.

Lemma wf_handleOpen cfg : preserves timers_wf (handleOpen cfg).
Proof.
  unfold handleOpen.
  apply preserves_bind; [apply preserves_log|intros _].
  apply preserves_bind; [by apply wf_conn|intros _].
  apply preserves_bind; [by apply wf_conn|intros _].
  apply preserves_bind; [by apply wf_conn|intros _].
  apply preserves_bind; [|intros _; apply wf_sendSubscription].
  destruct (which cfg); [|apply preserves_ret].
  wf_start. eapply (wf_add _ g); cbn; eauto; try done.
Qed.

Lemma wf_handleClose cfg code : preserves timers_wf (handleClose cfg code).
Proof.
  unfold handleClose.
  apply preserves_bind; [by apply wf_conn|intros _].
  apply preserves_bind; [apply wf_clearInactivityTimer|intros _].
  apply preserves_bind; [|intros _].
  2: { apply preserves_bind; [apply preserves_log|intros _; apply wf_scheduleReconnect]. }
  destruct (which cfg); [|apply preserves_ret].
  wf_start. destruct (pingTimer (gconn g)) as [t|] eqn:Ht; cbn.
  - eapply (wf_drop t g); cbn; eauto; try done.
    right. split; [done|]. by apply wf_reconnect_not_ping.
  - revert Hg. unfold timers_wf. cbn. rewrite Ht. done.
Qed.

Lemma wf_handleError err : preserves timers_wf (handleError err).
Proof.
  unfold handleError.
  apply preserves_bind; [apply preserves_log|intros _; apply wf_scheduleReconnect].
Qed.

Lemma wf_fireTimer cfg id : preserves timers_wf (fireTimer cfg id).
Proof.
  intros g Hg. unfold fireTimer. cbn.
  destruct (find_timer id (timers (ghost g))) as [[d|p|]|] eqn:Hf; cbn.
  - unfold_handlers. cbn. eapply (wf_drop id g); cbn; eauto; try done.
  - unfold inactivityTick. cbn. case_match; exact Hg.
  - unfold pingCallback. cbn. case_match; exact Hg.
  - done.
Qed.

Lemma wf_step cfg e g : timers_wf g → timers_wf (conn_step cfg e g).
Proof.
  intros Hg. destruct e; unfold conn_step; apply preserves_run_handler;
    auto using wf_handleOpen, wf_handleClose, wf_handleError, wf_fireTimer.
Qed.

Lemma wf_run cfg es t : timers_wf (conn_run cfg es t).
Proof.
  unfold conn_run.
  assert (timers_wf (run_handler connect (initial_globals t))) as H0.
  { unfold timers_wf. cbn. split_and!; try done; [constructor|intros e He; by apply elem_of_nil in He..]. }
  revert H0. generalize (run_handler connect (initial_globals t)).
  induction es as [|e es IH]; intros g Hg; cbn; [done|].
  apply IH. by apply wf_step.
Qed.

Lemma find_timer_NoDup id k (l : list (timer_id * timer_kind)) :
  NoDup l.*1 → (id, k) ∈ l → find_timer id l = Some k.
Proof.
  induction l as [|[j k'] l IH]; [by intros _ ?%elem_of_nil|].
  rewrite fmap_cons, NoDup_cons. cbn [fst find_timer]. intros [Hj Hl] Hin.
  apply elem_of_cons in Hin as [[= <- <-]|Hin].
  - by rewrite Nat.eqb_refl.
  - destruct (Nat.eqb_spec j id) as [->|Hne]; [|auto].
    destruct Hj. apply list_elem_of_fmap. by exists (id, k).
Qed.

Lemma filter_at_most_one (l : list (timer_id * timer_kind)) t :
  NoDup l.*1 → (∀ e, e ∈ l → is_inactivity e = true → e.1 = t) →
  length (List.filter is_inactivity l) ≤ 1.
Proof.
  induction l as [|e l IH]; [cbn; lia|].
  rewrite fmap_cons, NoDup_cons. intros [He Hl] Hall. cbn.
  assert (length (List.filter is_inactivity l) ≤ 1) as IH'.
  { apply IH; [done|]. intros e' He'. apply Hall. by right. }
  destruct (is_inactivity e) eqn:Hie; [|done]. cbn.
  destruct (List.filter is_inactivity l) as [|e' l'] eqn:Hf; [cbn; lia|].
  exfalso. assert (In e' (List.filter is_inactivity l)) as Hin by (rewrite Hf; by left).
  apply List.filter_In in Hin as [Hin Hie']. apply list_elem_of_In in Hin.
  apply He. apply list_elem_of_fmap. exists e'. split; [|done].
  rewrite (Hall e) by (done || by left). rewrite (Hall e'); [done|by right|done].
Qed.

Lemma scheduled_after_disconnect cfg e g :
  (match e with EvClose _ _ | EvError _ _ => True | _ => False end) →
  is_Some (reconnectTimer (gconn (conn_step cfg e g))).
Proof.
  destruct e; try done; intros _; unfold conn_step, run_handler.
  - apply (wp_prefix _ 0 _ (λ g', is_Some (reconnectTimer (gconn g')))). crunch.
  - apply (wp_prefix _ 0 _ (λ g', is_Some (reconnectTimer (gconn g')))). crunch.
Qed.

Lemma recovers_intro cfg g :
  timers_wf g → one_timer g → is_Some (reconnectTimer (gconn g)) → recovers cfg g.
Proof.
  intros Hwf Hone [id Hid]. pose proof Hwf as (Hnd & _ & Hrec & _).
  destruct (Hrec id Hid) as [d Hd]. exists id, d.
  unfold one_timer in Hone. rewrite Hid in Hone.
  assert (In (id, ReconnectTimeout d) (pending_reconnects g)) as Hin.
  { apply List.filter_In. split; [by apply list_elem_of_In|done]. }
  assert (pending_reconnects g = [(id, ReconnectTimeout d)]) as Hp.
  { destruct (pending_reconnects g) as [|x [|y l]]; cbn in *; [done| |lia].
    by destruct Hin as [->|[]]. }
  split_and!; [done|done|].
  pose proof (find_timer_NoDup id _ _ Hnd Hd) as Hf.
  cbn zeta. unfold conn_step, run_handler, fireTimer. cbn. rewrite Hf. cbn.
  split_and!; try done.
  unfold pending_reconnects. cbn. apply (filter_drop_fired id d); [done|].
  fold (pending_reconnects g). rewrite Hp. cbn. lia.
Qed.

Lemma socket_run cfg es t : is_Some (socket (gconn (conn_run cfg es t))).
Proof.
  unfold conn_run.
  assert (is_Some (socket (gconn (run_handler connect (initial_globals t))))) as H0
    by (by eexists).
  revert H0. generalize (run_handler connect (initial_globals t)).
  induction es as [|e es IH]; intros g Hg; cbn; [done|].
  apply IH. by apply socket_step.
Qed.

(** X16. Every disconnect is followed by a reconnect: after a close
    and after an error, in any reachable state, exactly one reconnect
    timer is pending and [reconnectTimer] holds it; when it fires, the
    timer is gone, the attempt is counted and a new socket is
    constructed. *)
Theorem disconnect_recovers cfg es t rs code err :
  let g := conn_run cfg es t in
  recovers cfg (conn_step cfg (EvClose rs code) g) ∧
  recovers cfg (conn_step cfg (EvError rs err) g).
Proof.
  cbn zeta. pose proof (wf_run cfg es t) as Hwf. pose proof (one_timer_run cfg es t) as Hone.
  split; apply recovers_intro;
    auto using wf_step, one_timer_step; by apply scheduled_after_disconnect.
Qed.

(** X15. The inactivity monitor does not leak: in every state the
    connection reaches at most one inactivity interval is running, and
    after a close none is and [inactivityTimer] is empty. *)
Theorem inactivity_monitor_single cfg es t rs code :
  let g := conn_run cfg es t in
  length (inactivity_timers g) ≤ 1 ∧
  inactivity_timers (conn_step cfg (EvClose rs code) g) = [] ∧
  inactivityTimer (gconn (conn_step cfg (EvClose rs code) g)) = None.
Proof.
  cbn zeta. pose proof (wf_run cfg es t) as Hwf.
  assert (Hnone : inactivityTimer (gconn (conn_step cfg (EvClose rs code) (conn_run cfg es t)))
                  = None).
  { unfold conn_step, run_handler.
    apply (wp_prefix _ 0 _ (λ g', inactivityTimer (gconn g') = None)). crunch. }
  split_and!; [| |done].
  - destruct Hwf as (Hnd & _ & _ & _ & _ & Hall).
    destruct (inactivityTimer (gconn (conn_run cfg es t))) as [t0|] eqn:Ht.
    + apply (filter_at_most_one _ t0); [done|].
      intros e He Hie. specialize (Hall e He Hie). congruence.
    + apply (filter_at_most_one _ 0); [done|].
      intros e He Hie. specialize (Hall e He Hie). congruence.
  - apply wf_none_no_inactivity; [by apply wf_step|done].
Qed.

Lemma par_store_requests P cfg pr (mk : globals → request) fs :
  (∀ g, truthy (cmsAuthToken (gsess g)) = true → store_request P cfg pr (mk g)) →
  Forall (λ qo : request * outcome response, ∃ g', qo.1 = mk g' ∧
            truthy (cmsAuthToken (gsess g')) = true) fs →
  Forall (λ qo, store_request P cfg pr qo.1) fs.
Proof.
  intros Hmk Hfs. eapply Forall_impl; [exact Hfs|].
  intros [q o] (g' & Hq & Ht). cbn in *. subst q. by apply Hmk.
Qed.

Ltac store_leaf :=
  unfold fetches in *; cbn;
  repeat (progress (rewrite ?omap_app; cbn;
    repeat match goal with H : omap _ ?t = _ |- _ => rewrite !H end; cbn));
  rewrite ?Forall_app; repeat split; try done; try apply Forall_nil.

Lemma should_store_requests P cfg pr g :
  wpo (shouldPersistPositionReport P cfg pr) g
    (λ _ t _, Forall (λ qo, store_request P cfg pr qo.1) (fetches t)).
Proof.
  unfold shouldPersistPositionReport, fetchRecentLogs, warnMissingCmsHost,
    await, modify, log, get.
  unfold mbind, prog_bind, mret, prog_ret.
  destruct (cmsCollectionUrl P cfg) as [url|] eqn:Hurl; cbn.
  2: { destruct (missingCmsHostWarned (gsess g)); cbn; store_leaf. }
  destruct (truthy (cmsAuthToken (gsess g))) eqn:Htok; cbn; [|store_leaf].
  eapply wpo_bind_try_call; [apply par_spec|].
  intros g1 t1 r1 (_ & _ & _ & _ & Hq) o g2.
  eapply (par_store_requests P cfg pr) in Hq; [|by intros g' Hg'; cbn; rewrite Hurl].
  destruct r1 as [resp|e]; cbn; [|store_leaf].
  destruct (ok resp); cbn; intros [v|?] ?; cbn; try store_leaf.
  repeat case_match; cbn; store_leaf.
Qed.

Lemma persist_store_requests P cfg pr g :
  wpo (persistPositionReport P cfg pr) g
    (λ _ t _, Forall (λ qo, store_request P cfg pr qo.1) (fetches t)).
Proof.
  unfold persistPositionReport, postAisLog, warnMissingCmsHost,
    warnMissingCmsCreds, await, modify, log, get.
  unfold mbind, prog_bind, mret, prog_ret.
  destruct (cmsCollectionUrl P cfg) as [url|] eqn:Hurl; cbn.
  2: { destruct (missingCmsHostWarned (gsess g)); cbn; store_leaf. }
  destruct (cmsLoginUrl P cfg) as [lurl|]; cbn.
  2: { destruct (missingCmsHostWarned (gsess g)); cbn; store_leaf. }
  destruct (credsMissing cfg); cbn.
  { destruct (missingCmsCredsWarned (gsess g)); cbn; store_leaf. }
  eapply wpo_bind_try_call; [apply ensure_spec|].
  intros g1 t1 r1 (Hf1 & _) o1 g2.
  destruct r1 as [v|e]; cbn; [|store_leaf].
  destruct (truthy (cmsAuthToken (gsess g2))) eqn:Htok; cbn; [|store_leaf].
  eapply wpo_bind_try_call; [apply should_store_requests|].
  intros g3 t3 r3 Hs o3 g4. cbn in Hs.
  destruct r3 as [[]|e]; cbn; [|store_leaf|store_leaf].
  apply wpo_bind, wpo_try.
  eapply wpo_bind_call; [apply par_spec|].
  intros g5 t5 r5 (_ & _ & _ & _ & Hq) o5 g6.
  eapply (par_store_requests P cfg pr) in Hq; [|by intros g' Hg'; cbn; rewrite Hurl].
  destruct r5 as [resp|e]; cbn; [|store_leaf].
  destruct (ok resp); cbn; [store_leaf|].
  intros [body|e] g7; cbn; store_leaf.
Qed.

(** X10. Every request [persistPositionReport] awaits goes to the
    collection URL with a non-empty bearer token; a query asks for the
    tracked vessel and a create carries the record built from this
    report; the handler itself never awaits a login request. *)
Theorem store_requests_authorized P cfg w c g pr :
  Forall (λ qo, store_request P cfg pr qo.1)
    (fetches (trace (run_open w (persistPositionReport P cfg pr) c g))).
Proof. apply (wpo_sound _ w c g _ (persist_store_requests P cfg pr g)). Qed.

Lemma gsess_step cfg e g : gsess (conn_step cfg e g) = gsess g.
Proof.
  destruct e; unfold conn_step, run_handler.
  - apply (wp_prefix _ 0 _ (λ g', gsess g' = gsess g)). crunch.
  - apply (wp_prefix _ 0 _ (λ g', gsess g' = gsess g)). crunch.
  - apply (wp_prefix _ 0 _ (λ g', gsess g' = gsess g)). crunch.
  - apply (wp_prefix _ 0 _ (λ g', gsess g' = gsess g)). crunch.
Qed.

(** X17. The connection lifecycle never touches the session: no open,
    close, error or timer event changes the cached token, the pending
    login or the warning flags. *)
Theorem lifecycle_keeps_session cfg es g :
  gsess (fold_left (λ g e, conn_step cfg e g) es g) = gsess g.
Proof.
  revert g. induction es as [|e es IH]; intros g; cbn; [done|].
  by rewrite IH, gsess_step.
Qed.

Lemma no_ping_step cfg e g :
  which cfg = CollectionsAisLogs →
  List.filter is_ping (timers (ghost g)) = [] ∧ pings (ghost g) = 0 →
  List.filter is_ping (timers (ghost (conn_step cfg e g))) = [] ∧
  pings (ghost (conn_step cfg e g)) = 0.
Proof.
  intros Hv [Hl Hp].
  assert (Hdrop : ∀ t, List.filter is_ping (drop_timer t (timers (ghost g))) = []).
  { intros t. unfold drop_timer. revert Hl. generalize (timers (ghost g)).
    induction l as [|x l IH]; [done|]. cbn [List.filter]. rewrite filter_cons.
    destruct (is_ping x) eqn:Hx; [done|]. intros Hl. case_decide; cbn; rewrite ?Hx; auto. }
  unfold drop_timer in Hdrop.
  destruct e; unfold conn_step, run_handler.
  - apply (wp_prefix _ 0 _ (λ g', List.filter is_ping (timers (ghost g')) = [] ∧
                                   pings (ghost g') = 0)).
    unfold_handlers. rewrite Hv. cbn.
    repeat (case_match; cbn); rewrite ?List.filter_app, ?Hdrop, ?Hl; cbn; done.
  - apply (wp_prefix _ 0 _ (λ g', List.filter is_ping (timers (ghost g')) = [] ∧
                                   pings (ghost g') = 0)).
    unfold_handlers. rewrite Hv. cbn.
    repeat (case_match; cbn); rewrite ?List.filter_app, ?Hdrop, ?Hl; cbn; done.
  - apply (wp_prefix _ 0 _ (λ g', List.filter is_ping (timers (ghost g')) = [] ∧
                                   pings (ghost g') = 0)).
    unfold_handlers. cbn.
    repeat (case_match; cbn); rewrite ?List.filter_app, ?Hdrop, ?Hl; cbn; done.
  - apply (wp_prefix _ 0 _ (λ g', List.filter is_ping (timers (ghost g')) = [] ∧
                                   pings (ghost g') = 0)).
    unfold fireTimer. cbn.
    destruct (find_timer id (timers (ghost g))) as [[d|p|]|] eqn:Hf; cbn.
    + unfold_handlers. cbn. fold (drop_timer id (timers (ghost g))). unfold drop_timer. by rewrite Hdrop.
    + unfold inactivityTick. cbn. case_match; done.
    + exfalso. revert Hl Hf. generalize (timers (ghost g)).
      induction l as [|[i k] l IH]; [done|]. cbn.
      destruct (is_ping (i, k)) eqn:Hk; [done|]. intros Hl.
      destruct (Nat.eqb i id); [|auto]. intros [= ->]. done.
    + done.
Qed.

(** X18. The second program has no keepalive: it never arms a ping
    interval and never pings. *)
Theorem keepalive_only_in_first_program cfg es t :
  which cfg = CollectionsAisLogs →
  pings (ghost (conn_run cfg es t)) = 0 ∧
  List.filter is_ping (timers (ghost (conn_run cfg es t))) = [].
Proof.
  intros Hv. unfold conn_run.
  assert (List.filter is_ping (timers (ghost (run_handler connect (initial_globals t)))) = [] ∧
          pings (ghost (run_handler connect (initial_globals t))) = 0) as H0 by done.
  revert H0. generalize (run_handler connect (initial_globals t)).
  induction es as [|e es IH]; intros g Hg; cbn; [by destruct Hg|].
  apply IH. by apply no_ping_step.
Qed.

Lemma keepalive_only_in_first_program_witness :
  pings (ghost (conn_run (cfg_of CollectionsAisLogs)
                  [EvOpen OPEN; EvTimer 0; EvClose CLOSED 1006; EvTimer 1; EvOpen OPEN] noon)) = 0.
Proof.
  exact (proj1 (keepalive_only_in_first_program (cfg_of CollectionsAisLogs)
                  [EvOpen OPEN; EvTimer 0; EvClose CLOSED 1006; EvTimer 1; EvOpen OPEN] noon
                  eq_refl)).
Defined.

(** X14. Subscribing starts the monitor: after an open event on an
    [OPEN] socket with the API key set, exactly one inactivity interval
    is running, with the period of the program (one hour in the first,
    five minutes in the second), [inactivityTimer] holds it and the
    counter is 0. *)
Theorem subscription_starts_monitor cfg es t :
  env_set (AIS_STREAM_KEY cfg) = true →
  let g := conn_step cfg (EvOpen OPEN) (conn_run cfg es t) in
  ∃ id, inactivity_timers g = [(id, InactivityInterval (inactivityPeriod cfg))] ∧
        inactivityTimer (gconn g) = Some id ∧
        minutesWaited (gconn g) = 0%Z.
Proof.
  intros Hkey. cbn zeta.
  pose proof (wf_step cfg (EvOpen OPEN) _ (wf_run cfg es t)) as Hwf.
  destruct (socket_run cfg es t) as [n Hs].
  assert (∃ id, inactivityTimer (gconn (conn_step cfg (EvOpen OPEN) (conn_run cfg es t))) = Some id ∧
     (id, InactivityInterval (inactivityPeriod cfg)) ∈
        timers (ghost (conn_step cfg (EvOpen OPEN) (conn_run cfg es t))) ∧
     minutesWaited (gconn (conn_step cfg (EvOpen OPEN) (conn_run cfg es t))) = 0%Z)
    as (id & Hid & Hin & Hm).
  { unfold conn_step, run_handler.
    apply (wp_prefix _ 0 _ (λ g', ∃ id, inactivityTimer (gconn g') = Some id ∧
       (id, InactivityInterval (inactivityPeriod cfg)) ∈ timers (ghost g') ∧
       minutesWaited (gconn g') = 0%Z)).
    unfold_handlers. unfold socketIsOpen. rewrite Hkey. cbn. rewrite ?Hs.
    destruct (which cfg); cbn; rewrite ?Hs; cbn;
      destruct (inactivityTimer (gconn (conn_run cfg es t))); cbn;
      eexists; (split_and!; [done| |done]); apply elem_of_app; right;
      by apply list_elem_of_singleton. }
  exists id. split_and!; [|done|done].
  pose proof Hwf as (Hnd & _ & _ & _ & _ & Hall).
  assert (length (inactivity_timers (conn_step cfg (EvOpen OPEN) (conn_run cfg es t))) ≤ 1)
    as Hle.
  { apply (filter_at_most_one _ id); [done|].
    intros e He Hie. specialize (Hall e He Hie). congruence. }
  assert (In (id, InactivityInterval (inactivityPeriod cfg))
            (inactivity_timers (conn_step cfg (EvOpen OPEN) (conn_run cfg es t)))) as Hin'.
  { apply List.filter_In. split; [by apply list_elem_of_In|done]. }
  destruct (inactivity_timers _) as [|x [|y l]]; cbn in *; [done| |lia].
  by destruct Hin' as [->|[]].
Qed.

Lemma subscription_starts_monitor_witness :
  ∃ id, inactivity_timers (conn_step (cfg_of AisLogs) (EvOpen OPEN)
          (conn_run (cfg_of AisLogs) [EvOpen OPEN; EvClose CLOSED 1006] noon))
        = [(id, InactivityInterval 3600000)].
Proof.
  destruct (subscription_starts_monitor (cfg_of AisLogs) [EvOpen OPEN; EvClose CLOSED 1006]
              noon eq_refl) as (id & Hid & _).
  exists id. exact Hid.
Defined.

Lemma ok_not_auth_failure resp : ok resp = true → is_auth_failure resp = false.
Proof.
  unfold ok, is_auth_failure. intros [H1 H2]%andb_true_iff.
  apply Z.leb_le in H1, H2. apply orb_false_iff. split; apply Z.eqb_neq; lia.
Qed.

(** X19. A new position is stored. With the store configured, a token
    cached, every request answered 2xx and a history that neither rule
    rejects, [persistPositionReport] sends the history query and then
    exactly one create, both to the collection URL with the cached
    token; the create carries the record built from the report; nothing
    is written to the console and no variable changes. *)
Theorem new_position_is_stored P cfg c g pr url lurl resp text payload :
  cmsCollectionUrl P cfg = Some url → cmsLoginUrl P cfg = Some lurl →
  credsMissing cfg = false →
  truthy (cmsAuthToken (gsess g)) = true →
  ok resp = true →
  dedupAllows P (now (ghost g)) pr payload = true →
  let r := run_open (world_of (answers (Ok resp) text (Ok payload)))
             (persistPositionReport P cfg pr) c g in
  fetches (trace r) =
    [(QueryRequest url (cmsAuthToken (gsess g)) (mmsi cfg)
        (now (ghost g) - 12 * 60 * 60 * 1000)%float, Ok resp);
     (CreateRequest url (cmsAuthToken (gsess g)) (aisLogBody cfg pr), Ok resp)] ∧
  logs (trace r) = [] ∧
  final r = g.
Proof.
  intros Hurl Hlurl Hcreds Htok Hok Hallow. cbn zeta.
  pose proof (ok_not_auth_failure resp Hok) as Hauth.
  unfold dedupAllows in Hallow. apply andb_true_iff in Hallow as [Hrec Hsame].
  apply negb_true_iff in Hrec, Hsame. cbn in Hrec.
  unfold persistPositionReport, shouldPersistPositionReport, performAuthorizedRequest,
    ensureCmsSession, fetchRecentLogs, postAisLog, fetchWith, await_call, await, modify,
    log, get.
  unfold mbind, prog_bind, mret, prog_ret.
  rewrite Hurl, Hlurl, Hcreds. cbn.
  repeat (rewrite ?Htok, ?Hok, ?Hauth, ?Hrec, ?Hsame; cbn).
  done.
Qed.

Lemma new_position_is_stored_witness :
  logs (trace (run_open (world_of (answers (Ok http_ok) (Ok "") (Ok (history []))))
     (persistPositionReport P0 (cfg_of AisLogs) sample_report) 0 g_authed)) = [].
Proof.
  destruct (new_position_is_stored P0 (cfg_of AisLogs) 0 g_authed sample_report
              "https://cms.example/api/ais-logs" "https://cms.example/api/users/login"
              http_ok (Ok "") (history []) eq_refl eq_refl eq_refl eq_refl eq_refl eq_refl)
    as (_ & Hlogs & _).
  exact Hlogs.
Defined.
